(** * Drips SDK: the packed drips configuration, the utility helpers and the
      subgraph client's squeeze-argument builder.

    Shallow embedding of [src/utils.ts] (the helpers and the
    [DripsReceiverConfig] class) and of the pure parts of
    [src/DripsSubgraph/DripsSubgraphClient.ts].

    Conventions.
    - A [BigNumber] of ethers v5 is an arbitrary-precision signed integer: it
      is a [Z].  A [BigNumberish] argument is modelled by the integer it
      denotes.  The bitwise methods of ethers' [BigNumber] refuse negative
      operands with a [NUMERIC_FAULT]; that is written out in [BigNumber].
    - A [throw] is a [Throw] of the [result] monad. *)

From Stdlib Require Import ZArith NArith Lia Ascii.
From stdpp Require Import prelude strings sorting gmap.

Local Open Scope Z_scope.

(** ** Errors and the error monad *)

Inductive DripsErrorCode :=
  | INVALID_ADDRESS
  | INVALID_ARGUMENT
  | MISSING_ARGUMENT
  | UNSUPPORTED_NETWORK
  | SUBGRAPH_QUERY_ERROR.

(** What the code can throw: a [DripsError] of the SDK, one of the two faults
    ethers' [BigNumber] raises, or a rejection of the platform ([fetch],
    [Response.json]) that the SDK lets through. *)
Inductive exn :=
  | DripsError (code : DripsErrorCode) (message : string)
  | NumericFault (fault operation : string)
  | InvalidBigNumberString (value : string)
  | PlatformError (message : string).

Inductive result (A : Type) :=
  | Return (a : A)
  | Throw (e : exn).
Arguments Return {A} a.
Arguments Throw {A} e.

Definition bind {A B : Type} (m : result A) (k : A -> result B) : result B :=
  match m with
  | Return a => k a
  | Throw e => Throw e
  end.

Notation "'let!' x ':=' m 'in' k" := (bind m (fun x => k))
  (at level 10, x name, m at level 100, k at level 200).

Module DripsErrors.
Definition invalidArgument (message : string) : exn :=
  DripsError INVALID_ARGUMENT message.
Definition invalidAddress (message : string) : exn :=
  DripsError INVALID_ADDRESS message.
Definition subgraphQueryError (message : string) : exn :=
  DripsError SUBGRAPH_QUERY_ERROR message.
End DripsErrors.

(** ** ethers' BigNumber, as far as the SDK uses it *)

Module BigNumber.

Definition isNegative (x : Z) : bool := x <? 0.

Definition eq (x other : Z) : bool := x =? other.

Definition shl (x : Z) (value : Z) : result Z :=
  if isNegative x || (value <? 0)
  then Throw (NumericFault "negative-width" "shl")
  else Return (Z.shiftl x value).

Definition shr (x : Z) (value : Z) : result Z :=
  if isNegative x || (value <? 0)
  then Throw (NumericFault "negative-width" "shr")
  else Return (Z.shiftr x value).

Definition and (x other : Z) : result Z :=
  if isNegative x || isNegative other
  then Throw (NumericFault "unbound-bitwise-result" "and")
  else Return (Z.land x other).

Definition or (x other : Z) : result Z :=
  if isNegative x || isNegative other
  then Throw (NumericFault "unbound-bitwise-result" "or")
  else Return (Z.lor x other).

End BigNumber.

(** ** class DripsReceiverConfig *)

Module DripsReceiverConfig.

Record t := mk {
  start : Z;
  duration : Z;
  asUint256 : Z;
  amountPerSec : Z
}.

(** [toUint256] reads [start], [duration] and [amountPerSec] only. *)
Definition toUint256 (config : t) : result Z :=
  let start := start config in
  let duration := duration config in
  let amountPerSec := amountPerSec config in
  let configAsUint256 := amountPerSec in
  let! configAsUint256 := BigNumber.shl configAsUint256 32 in
  let! configAsUint256 := BigNumber.or configAsUint256 start in
  let! configAsUint256 := BigNumber.shl configAsUint256 32 in
  let! configAsUint256 := BigNumber.or configAsUint256 duration in
  Return configAsUint256.

(** The constructor.  [duration] and [start] are optional and default to 0.
    [toUint256 this] runs before [this.asUint256] is assigned; the field holds
    a placeholder meanwhile, which [toUint256] never reads. *)
Definition new (amountPerSec : Z) (duration start : option Z) : result t :=
  let duration := default 0 duration in
  let start := default 0 start in
  if BigNumber.eq amountPerSec 0
  then Throw (DripsErrors.invalidArgument
                "Could not create a new DripsReceiverConfig: amountPerSec cannot be 0.")
  else
    let this := {| start := start; duration := duration;
                   amountPerSec := amountPerSec; asUint256 := 0 |} in
    let! asUint256 := toUint256 this in
    Return {| start := start; duration := duration;
              amountPerSec := amountPerSec; asUint256 := asUint256 |}.

Definition fromUint256 (dripsConfig : Z) : result t :=
  let config := dripsConfig in
  let! amountPerSec := BigNumber.shr config 64 in
  let! duration := BigNumber.and config (2 ^ 32 - 1) in
  let! start := (let! shifted := BigNumber.shr config 32 in
                 BigNumber.and shifted (2 ^ 32 - 1)) in
  new amountPerSec (Some duration) (Some start).

(** The values of the class: what the constructor returns. *)
Definition instance (c : t) : Prop :=
  exists a d s, new a d s = Return c.

End DripsReceiverConfig.

(** ** JavaScript strings, as far as the helpers use them *)

Module JsString.

(** [s.includes(c)] for a one-character pattern [c]. *)
Fixpoint includes (s : string) (c : ascii) : bool :=
  match s with
  | EmptyString => false
  | String a s' => if Ascii.eqb a c then true else includes s' c
  end.

(** [s.split(sep)] for a one-character separator: the pieces between the
    occurrences of [sep], in order; never the empty array. *)
Fixpoint split (s : string) (sep : ascii) : list string :=
  match s with
  | EmptyString => [EmptyString]
  | String a s' =>
      if Ascii.eqb a sep then EmptyString :: split s' sep
      else match split s' sep with
           | [] => [String a EmptyString]
           | piece :: pieces => String a piece :: pieces
           end
  end.

(** [!s]: the empty string is the only falsy string. *)
Definition falsy (s : string) : bool :=
  match s with
  | EmptyString => true
  | String _ _ => false
  end.

End JsString.

(** ** Positional numerals: what [BigNumber.from(string)], [toString()] and
       [toHexString()] read and write *)

Module Numeral.
Local Open Scope N_scope.

(** The digits, by value; the upper-case letters are read as well. *)
Definition lowerDigits : string := "0123456789abcdef".
Definition upperDigits : string := "0123456789ABCDEF".

Definition digitChar (d : N) : ascii :=
  match String.get (N.to_nat d) lowerDigits with
  | Some c => c
  | None => "f"%char
  end.

(** The position of the first [c] in [s], counted from [i]. *)
Fixpoint indexFrom (i : N) (c : ascii) (s : string) : option N :=
  match s with
  | EmptyString => None
  | String a s' => if Ascii.eqb a c then Some i else indexFrom (N.succ i) c s'
  end.

Definition charDigit (c : ascii) : option N :=
  match indexFrom 0 c lowerDigits with
  | Some d => Some d
  | None => indexFrom 0 c upperDigits
  end.

(** Reads the digits of [s] in base [base], most significant first, onto
    the accumulator; [None] when a character is not a digit of the base. *)
Fixpoint parse (base : N) (s : string) (acc : N) : option N :=
  match s with
  | EmptyString => Some acc
  | String c s' =>
      match charDigit c with
      | Some d => if d <? base then parse base s' (acc * base + d) else None
      | None => None
      end
  end.

Fixpoint printFuel (base : N) (fuel : nat) (n : N) : string :=
  match fuel with
  | O => EmptyString
  | S fuel' =>
      if n <? base then String (digitChar n) EmptyString
      else printFuel base fuel' (n / base)
           +:+ String (digitChar (n mod base)) EmptyString
  end.

(** The numeral of [n] without leading zeros ("0" for zero); the fuel
    exceeds the number of digits. *)
Definition print (base : N) (n : N) : string :=
  printFuel base (S (N.to_nat (N.log2 n))) n.

End Numeral.

Module BigNumberString.

(** A leading '-' and what follows it. *)
Definition stripSign (s : string) : bool * string :=
  match s with
  | String c s' => if Ascii.eqb c "-" then (true, s') else (false, s)
  | EmptyString => (false, s)
  end.

(** What follows a leading 0x. *)
Definition strip0x (s : string) : option string :=
  match s with
  | String c0 (String c1 hex) =>
      if Ascii.eqb c0 "0" && Ascii.eqb c1 "x" then Some hex else None
  | _ => None
  end.

(** The value of a hex string (0x and at least one hex digit of either
    case) and of a decimal numeral (/^[0-9]+$/). *)
Definition hexValue (digits : string) : option N :=
  match strip0x digits with
  | Some hex => if JsString.falsy hex then None else Numeral.parse 16 hex 0
  | None => None
  end.

Definition decimalValue (digits : string) : option N :=
  if JsString.falsy digits then None else Numeral.parse 10 digits 0.

(** The integer that [BigNumber.from(value)] holds for a string: a hex
    string, else a decimal numeral, either with or without a leading '-';
    anything else is an invalid-argument fault of ethers.  The integer is
    what [toString()] and the bitwise methods read.  ethers keeps a hex
    string as it is written and admits the prefix in upper case as well;
    of a hex string only the integer is kept here, and only behind the
    prefix 0x. *)
Definition from (value : string) : result Z :=
  let '(negative, digits) := stripSign value in
  let signed (n : N) := if negative : bool then - Z.of_N n else Z.of_N n in
  match hexValue digits with
  | Some n => Return (signed n)
  | None =>
      match decimalValue digits with
      | Some n => Return (signed n)
      | None => Throw (InvalidBigNumberString value)
      end
  end.

Definition sign (x : Z) : string := if x <? 0 then "-" else "".

(** [x.toString()]: the decimal numeral. *)
Definition toString (x : Z) : string :=
  sign x +:+ Numeral.print 10 (Z.abs_N x).

(** [x.toHexString()]: 0x and the lower-case hex numeral, padded with one
    zero to an even number of digits. *)
Definition toHexString (x : Z) : string :=
  let hex := Numeral.print 16 (Z.abs_N x) in
  sign x +:+ "0x" +:+ (if Nat.even (String.length hex) then hex else "0" +:+ hex).

End BigNumberString.

(** ** utils.ts *)

Module Utils.

Record UserAssetConfigIdParts := {
  userId : option string;   (* [None] is [undefined] *)
  assetId : option string
}.

Definition destructUserAssetConfigId (configId : string)
  : result UserAssetConfigIdParts :=
  if JsString.falsy configId || negb (JsString.includes configId "-")
  then Throw (DripsErrors.invalidArgument
                ("Could not destruct user asset configuration ID: '" +:+ configId
                 +:+ "' is not a valid user asset configuration ID."))
  else Return {| userId := JsString.split configId "-" !! 0%nat;
                 assetId := JsString.split configId "-" !! 1%nat |}.

Definition isHexDigit (c : ascii) : bool :=
  match Numeral.charDigit c with
  | Some _ => true
  | None => false
  end.

(** Modelled from the spec: the validity test behind
    [guardAgainstInvalidAddress], which is imported from ./common and is not
    among the sources.  A valid address is taken in its canonical form, 0x
    followed by 40 hexadecimal digits of either case. *)
Definition isAddress (address : string) : bool :=
  match BigNumberString.strip0x address with
  | Some hex =>
      bool_decide (String.length hex = 40%nat)
      && forallb isHexDigit (String.list_ascii_of_string hex)
  | None => false
  end.

(** Modelled from the spec: [guardAgainstInvalidAddress] of ./common, not
    among the sources; it throws [DripsErrors.invalidAddress] for an address
    that is not valid.  The text of the message is not known and stands for
    itself. *)
Definition guardAgainstInvalidAddress (address : string) : result unit :=
  if isAddress address then Return tt
  else Throw (DripsErrors.invalidAddress ("Address '" +:+ address +:+ "' is not valid.")).

Definition getAssetIdFromAddress (erc20TokenAddress : string) : result string :=
  let! _ := guardAgainstInvalidAddress erc20TokenAddress in
  let! n := BigNumberString.from erc20TokenAddress in
  Return (BigNumberString.toString n).

Definition getTokenAddressFromAssetId (assetId : string) : result string :=
  let! n := BigNumberString.from assetId in
  Return (BigNumberString.toHexString n).

End Utils.

(** ** DripsSubgraphClient.ts *)

(** The Numbers this code computes with: the integer-valued ones, the two
    infinities and NaN. *)
Module JsNumber.

Inductive t :=
| Finite (z : Z)
| Infinity (negative : bool)
| NaN.

(** The Number value for an integer: the integer itself below 2^53 in
    magnitude; beyond, the nearest value with a significand of 53 bits, a
    tie going to the even significand, and infinity when that value reaches
    2^1024. *)
Definition round (x : Z) : t :=
  let a := Z.abs x in
  if a <? 2 ^ 53 then Finite x
  else
    let e := Z.log2 a - 52 in
    let q := Z.shiftr a e in
    let r := Z.land a (Z.ones e) in
    let half := 2 ^ (e - 1) in
    let q' := if (half <? r) || ((r =? half) && Z.odd q) then q + 1 else q in
    let m := q' * 2 ^ e in
    if 2 ^ 1024 <=? m then Infinity (x <? 0) else Finite (Z.sgn x * m).

(** [Number(value)] for a bigint. *)
Definition Number (value : Z) : t := round value.

(** [x - y]: the difference of two integer-valued Numbers is the Number
    value for their exact difference; infinity minus itself is NaN. *)
Definition minus (x y : t) : t :=
  match x, y with
  | Finite a, Finite b => round (a - b)
  | Finite _, Infinity negative => Infinity (negb negative)
  | Infinity negative, Finite _ => Infinity negative
  | Infinity negative, Infinity negative' =>
      if Bool.eqb negative negative' then NaN else Infinity negative
  | NaN, _ | _, NaN => NaN
  end.

(** [v > 0]; false for NaN. *)
Definition isPositive (v : t) : bool :=
  match v with
  | Finite z => 0 <? z
  | Infinity negative => negb negative
  | NaN => false
  end.

(** For the statements about order: a place on the integer line for every
    Number that [round] returns, with the infinities at the two ends. *)
Definition weight (v : t) : Z :=
  match v with
  | Finite z => z
  | Infinity negative => if negative then - 2 ^ 1024 else 2 ^ 1024
  | NaN => 0
  end.

End JsNumber.

(** A [Date], as its time value; [None] is an Invalid Date. *)
Module JsDate.

Definition t := option Z.

(** The largest magnitude of a time value: 8.64e15 milliseconds. *)
Definition maxTime : Z := 8640000000000000.

(** [new Date(value)] for a Number: the date is invalid when the value is
    not finite or is beyond [maxTime] in magnitude. *)
Definition new (value : JsNumber.t) : t :=
  match value with
  | JsNumber.Finite z => if Z.abs z <=? maxTime then Some z else None
  | _ => None
  end.

(** [a >= b] for two dates: the comparison of the time values, false when
    either date is invalid. *)
Definition ge (a b : t) : bool :=
  match a, b with
  | Some x, Some y => y <=? x
  | _, _ => false
  end.

End JsDate.

(** [Array.prototype.sort(compareFn)]: a stable sort; [a] stays before [b]
    unless [compareFn a b > 0], and a NaN from [compareFn] counts as 0.  For
    a comparator that orders by a key, as the one used here, the result of a
    stable sort is determined, so the insertion sort below computes what the
    engine's sort returns. *)
Section ArraySort.
Context {A : Type} (compareFn : A -> A -> JsNumber.t).

Fixpoint sortInsert (x : A) (l : list A) : list A :=
  match l with
  | [] => [x]
  | y :: l' =>
      if JsNumber.isPositive (compareFn x y) then y :: sortInsert x l'
      else x :: y :: l'
  end.

Definition sort (l : list A) : list A := foldr sortInsert [] l.
End ArraySort.

(** [array.map(f)] for an [f] that may throw: left to right, the first throw
    ends it. *)
Fixpoint mapM {A B : Type} (f : A -> result B) (l : list A) : result (list B) :=
  match l with
  | [] => Return []
  | x :: l' =>
      let! y := f x in
      let! ys := mapM f l' in
      Return (y :: ys)
  end.

(** An entry of [DripsSetEvent.dripsReceiverSeenEvents]. *)
Module DripsReceiverSeen.
Record t := mk {
  receiverUserId : string;
  config : Z
}.
End DripsReceiverSeen.

(** A [DripsSet] event, with the fields the builder reads. *)
Module DripsSetEvent.
Record t {AssetId : Type} := mk {
  assetId : AssetId;
  dripsReceiverSeenEvents : list DripsReceiverSeen.t;
  dripsHistoryHash : string;
  blockTimestamp : Z;
  maxEnd : Z;
  receiversHash : string
}.
Arguments t : clear implicits.
End DripsSetEvent.

Module DripsReceiverStruct.
Record t := mk {
  userId : string;
  config : Z
}.
End DripsReceiverStruct.

Module DripsHistoryStruct.
Record t := mk {
  dripsHash : string;
  receivers : list DripsReceiverStruct.t;
  updateTime : Z;
  maxEnd : Z
}.
End DripsHistoryStruct.

(** [ethers.constants.HashZero] *)
Definition HashZero : string :=
  "0x0000000000000000000000000000000000000000000000000000000000000000".

(** A type of values with a [toString()] method. *)
Class ToString (A : Type) := toString : A -> string.

(** [toString()] of a string is the string. *)
Global Instance string_ToString : ToString string := fun s => s.

(** An event of the list [getSqueezableSenders] walks: the sender and the
    asset of the [DripsSet] event it belongs to.  Both identifiers are used
    through [toString()] only. *)
Module DripsReceiverSeenEvent.
Record dripsSetEventRef {AssetId : Type} := mkRef {
  assetId : AssetId
}.
Arguments dripsSetEventRef : clear implicits.
Record t {SenderId AssetId : Type} := mk {
  senderUserId : SenderId;
  dripsSetEvent : dripsSetEventRef AssetId
}.
Arguments t : clear implicits.
End DripsReceiverSeenEvent.

(** The HTTP response [fetch] resolves to, and the body [json()] parses. *)
Module Response.
Record content {T E : Type} := mkContent {
  data : option T;
  errors : option (list E)    (* [None] is an absent [errors] *)
}.
Arguments content : clear implicits.
Record t {T E : Type} := mk {
  status : Z;
  statusText : string;
  json : result (option (content T E))   (* [None] is a [null] body *)
}.
Arguments t : clear implicits.
End Response.

Module DripsSubgraphClient.

Section GetArgsForSqueezingAllDrips.
Context {AssetId : Type} `{EqDecision AssetId}.

(** [Utils.Cycle.getInfo(chainId).currentCycleStartDate], a valid date,
    as its time value; and [Utils.Asset.getIdFromAddress], which validates
    the address and may throw.  Neither is among the sources.  The loop asks
    for the cycle at every turn; the start is one date for the whole walk, as
    it is unless a cycle ends while the loop runs. *)
Variable currentCycleStartDate : Z.
Variable getIdFromAddress : string -> result AssetId.

(** (a, b) => Number(b.blockTimestamp) - Number(a.blockTimestamp), the
    block timestamps being bigints. *)
Definition byBlockTimestampDesc (a b : DripsSetEvent.t AssetId) : JsNumber.t :=
  JsNumber.minus (JsNumber.Number (DripsSetEvent.blockTimestamp b))
                 (JsNumber.Number (DripsSetEvent.blockTimestamp a)).

(** The loop over the sorted events: keep an event of the current cycle
    and go on; keep the first other one and stop.  An event whose timestamp
    makes an Invalid Date compares false and is such an other one. *)
Fixpoint keepCurrentCycle (dripsSetEvents : list (DripsSetEvent.t AssetId))
  : list (DripsSetEvent.t AssetId) :=
  match dripsSetEvents with
  | [] => []
  | dripsConfiguration :: rest =>
      let eventTimestamp :=
        JsDate.new (JsNumber.Number (DripsSetEvent.blockTimestamp dripsConfiguration)) in
      if JsDate.ge eventTimestamp (Some currentCycleStartDate)
      then dripsConfiguration :: keepCurrentCycle rest
      else [dripsConfiguration]
  end.

(** For the statements about the events kept: a block timestamp that is a
    time value, that is, at most [JsDate.maxTime] in magnitude. *)
Definition isTimeValue (e : DripsSetEvent.t AssetId) : Prop :=
  Z.abs (DripsSetEvent.blockTimestamp e) <= JsDate.maxTime.

(** For the statements about the events kept: [older] is empty when no
    event of [l] is before the cycle start, and else it is one event of
    [l] before the cycle start that no other such event of [l] is later
    than. *)
Definition mostRecentBefore (l older : list (DripsSetEvent.t AssetId)) : Prop :=
  (older = []
   /\ Forall (fun e => currentCycleStartDate <= DripsSetEvent.blockTimestamp e) l)
  \/ exists p, older = [p] /\ p ∈ l
       /\ DripsSetEvent.blockTimestamp p < currentCycleStartDate
       /\ forall e, e ∈ l ->
            DripsSetEvent.blockTimestamp e < currentCycleStartDate ->
            DripsSetEvent.blockTimestamp e <= DripsSetEvent.blockTimestamp p.

Definition squeezableDripsSetEvents (fetched : list (DripsSetEvent.t AssetId))
  : list (DripsSetEvent.t AssetId) :=
  keepCurrentCycle (sort byBlockTimestampDesc fetched).

(** The inner loop over the receivers of one event; the asset of the
    token is looked up only for a receiver that is [userId]. *)
Fixpoint shouldSqueeze (userId tokenAddress : string)
    (dripsSetEvent : DripsSetEvent.t AssetId)
    (receivers : list DripsReceiverSeen.t) : result bool :=
  match receivers with
  | [] => Return false
  | receiver :: rest =>
      let! found :=
        (if bool_decide (DripsReceiverSeen.receiverUserId receiver = userId)
         then let! tokenAssetId := getIdFromAddress tokenAddress in
              Return (bool_decide (DripsSetEvent.assetId dripsSetEvent = tokenAssetId))
         else Return false) in
      if found : bool then Return true
      else shouldSqueeze userId tokenAddress dripsSetEvent rest
  end.

Definition historyItem (userId tokenAddress : string)
    (dripsSetEvent : DripsSetEvent.t AssetId) : result DripsHistoryStruct.t :=
  let! shouldSqueeze :=
    shouldSqueeze userId tokenAddress dripsSetEvent
      (DripsSetEvent.dripsReceiverSeenEvents dripsSetEvent) in
  Return {|
    DripsHistoryStruct.dripsHash :=
      if shouldSqueeze : bool then HashZero
      else DripsSetEvent.receiversHash dripsSetEvent;
    DripsHistoryStruct.receivers :=
      if shouldSqueeze
      then map (fun r => {| DripsReceiverStruct.userId := DripsReceiverSeen.receiverUserId r;
                            DripsReceiverStruct.config := DripsReceiverSeen.config r |})
               (DripsSetEvent.dripsReceiverSeenEvents dripsSetEvent)
      else [];
    DripsHistoryStruct.updateTime := DripsSetEvent.blockTimestamp dripsSetEvent;
    DripsHistoryStruct.maxEnd := DripsSetEvent.maxEnd dripsSetEvent
  |}.

(** The history hash: of the last (oldest) event kept, if more than one
    was kept. *)
Definition historyHashOf (squeezable : list (DripsSetEvent.t AssetId)) : string :=
  if bool_decide (1 < length squeezable)%nat
  then match squeezable !! (length squeezable - 1)%nat with
       | Some oldest => DripsSetEvent.dripsHistoryHash oldest
       | None => HashZero   (* not reached: the index is in range *)
       end
  else HashZero.

(** [fetched] is what [getDripsSetEventsByUserId senderId] resolved to. *)
Definition getArgsForSqueezingAllDrips (userId senderId tokenAddress : string)
    (fetched : list (DripsSetEvent.t AssetId))
  : result (string * string * string * string * list DripsHistoryStruct.t) :=
  let squeezableDripsSetEvents := squeezableDripsSetEvents fetched in
  let historyHash := historyHashOf squeezableDripsSetEvents in
  let! items := mapM (historyItem userId tokenAddress) squeezableDripsSetEvents in
  let dripsHistory := reverse items in
  Return (userId, tokenAddress, senderId, historyHash, dripsHistory).

End GetArgsForSqueezingAllDrips.

Section GetSqueezableSenders.
Context {SenderId AssetId : Type} `{ToString SenderId} `{ToString AssetId}.

(** The two records of the loop: [squeezableSenders] and
    [processedSenders].  A key is absent until the loop assigns it: the keys
    are the [toString()] of user IDs, which are numerals, and no numeral
    names a property that an empty object inherits. *)
Definition senders : Type := gmap string (list string) * gmap string bool.

Definition processEvent (acc : senders)
    (dripsReceiverSeenEvent : DripsReceiverSeenEvent.t SenderId AssetId) : senders :=
  let '(squeezableSenders, processedSenders) := acc in
  let senderUserId := DripsReceiverSeenEvent.senderUserId dripsReceiverSeenEvent in
  let dripsSetEvent := DripsReceiverSeenEvent.dripsSetEvent dripsReceiverSeenEvent in
  if negb (default false (processedSenders !! toString senderUserId))
  then
    let processedSenders := <[toString senderUserId := true]> processedSenders in
    let squeezableSenders :=
      if negb (bool_decide (is_Some (squeezableSenders !! toString senderUserId)))
      then <[toString senderUserId := []]> squeezableSenders
      else squeezableSenders in
    let squeezableSenders :=
      alter (fun assets => assets ++ [toString (DripsReceiverSeenEvent.assetId dripsSetEvent)])
            (toString senderUserId) squeezableSenders in
    (squeezableSenders, processedSenders)
  else acc.

(** [dripsReceiverSeenEvents] is [response?.data?.dripsReceiverSeenEvents];
    [None] is [undefined]. *)
Definition getSqueezableSenders
    (dripsReceiverSeenEvents : option (list (DripsReceiverSeenEvent.t SenderId AssetId)))
  : gmap string (list string) :=
  match dripsReceiverSeenEvents with
  | None | Some [] => ∅
  | Some events => fst (foldl processEvent (∅, ∅) events)
  end.

End GetSqueezableSenders.

Section Query.
Context {T E : Type}.

(** [JSON.stringify] on an entry of [errors]. *)
Variable stringify : E -> string.

Definition inRange (status : Z) : bool := (200 <=? status) && (status <=? 299).

Definition hasErrors (responseContent : option (Response.content T E)) : bool :=
  match responseContent with
  | Some {| Response.errors := Some (_ :: _) |} => true
  | _ => false
  end.

(** For the statements about [query]: the body has no [errors] array,
    or an empty one. *)
Definition errorsAbsentOrEmpty (responseContent : option (Response.content T E))
  : Prop :=
  match responseContent with
  | Some content =>
      Response.errors content = None \/ Response.errors content = Some []
  | None => True
  end.

Definition firstError (responseContent : option (Response.content T E)) : option E :=
  match responseContent with
  | Some {| Response.errors := Some errors |} => errors !! 0%nat
  | _ => None
  end.

(** [fetched] is what [await fetch(...)] came to: the response, or what
    building the request body or the fetch itself threw. *)
Definition query (fetched : result (Response.t T E))
  : result (option (Response.content T E)) :=
  let! resp := fetched in
  if inRange (Response.status resp)
  then
    let! responseContent := Response.json resp in
    if hasErrors responseContent
    then Throw (DripsErrors.subgraphQueryError
                  ("Subgraph query failed: "
                   +:+ from_option stringify "undefined" (firstError responseContent)))
    else Return responseContent
  else Throw (DripsErrors.subgraphQueryError
                ("Subgraph query failed: " +:+ Response.statusText resp)).

End Query.

End DripsSubgraphClient.

(** ** AddressDriverClient.ts: the address of a user ID *)

Module AddressDriverClient.

(** [BigNumber.sub] has no restriction on its operands. *)
Definition sub (x other : Z) : Z := x - other.

(** What [ethers.utils.getAddress] throws: both are invalid-argument faults of
    ethers, told apart by their reason. *)
Inductive addressFault :=
  | InvalidAddress (address : string)
  | BadAddressChecksum (address : string).

(** How [getUserAddress] ends: with the address, with what the [BigNumber]
    operations threw, or with what [getAddress] threw. *)
Inductive outcome :=
  | Returned (address : string)
  | Thrown (e : exn)
  | ThrownByGetAddress (fault : addressFault).

(** 40 hexadecimal digits of either case: [0-9a-fA-F]{40}. *)
Definition isHex40 (s : string) : bool :=
  bool_decide (String.length s = 40%nat)
  && forallb Utils.isHexDigit (String.list_ascii_of_string s).

Definition inRangeChar (lo hi c : ascii) : bool :=
  (N_of_ascii lo <=? N_of_ascii c)%N && (N_of_ascii c <=? N_of_ascii hi)%N.

(** /([A-F].*[a-f])|([a-f].*[A-F])/: a letter A-F and a letter a-f, in
    either order. *)
Definition mixedCase (s : string) : bool :=
  existsb (inRangeChar "A" "F") (String.list_ascii_of_string s)
  && existsb (inRangeChar "a" "f") (String.list_ascii_of_string s).

Section GetAddress.

(** [getChecksumAddress] of ethers, which sets the case of the letters by a
    hash of the address, and the branch of [getAddress] for ICAP addresses,
    which start with XE; neither is modelled further. *)
Variable getChecksumAddress : string -> string.
Variable getIcapAddress : string -> outcome.

(** [ethers.utils.getAddress]: an address is 40 hex digits with or without
    the 0x (/^(0x)?[0-9a-fA-F]{40}$/); one in mixed case must carry its own
    checksum. *)
Definition getAddress (address : string) : outcome :=
  let prefixed :=
    if isHex40 address then Some ("0x" +:+ address)
    else match BigNumberString.strip0x address with
         | Some hex => if isHex40 hex then Some address else None
         | None => None
         end in
  match prefixed with
  | Some address =>
      let result := getChecksumAddress address in
      if mixedCase address && negb (bool_decide (result = address))
      then ThrownByGetAddress (BadAddressChecksum address)
      else Returned result
  | None =>
      match address with
      | String "X" (String "E" _) => getIcapAddress address
      | _ => ThrownByGetAddress (InvalidAddress address)
      end
  end.

Definition getUserAddress (userId : string) : outcome :=
  let userAddressHex : result string :=
    let! userIdAsBN := BigNumberString.from userId in
    let! shifted := BigNumber.shl 1 160 in
    let mask := sub shifted 1 in
    let! userAddress := BigNumber.and userIdAsBN mask in
    Return (BigNumberString.toHexString userAddress) in
  match userAddressHex with
  | Return hex => getAddress hex
  | Throw e => Thrown e
  end.

End GetAddress.

End AddressDriverClient.

(** ** DripsSubgraphClient.ts: the methods that ask the subgraph *)

Module SubgraphQueries.

(** [DripsErrors.argumentMissingError]; [nameOf({ x })] is the text x. *)
Definition argumentMissingError (message : string) : exn :=
  DripsError MISSING_ARGUMENT message.

(** The variables of a query, by name. *)
Definition variables : Type := list (string * string).

(** The ID [getUserAssetConfigById] asks for: `${userId}-${assetId}`, for an
    asset ID given as a [bigint]. *)
Definition userAssetConfigId (userId : string) (assetId : Z) : string :=
  userId +:+ "-" +:+ BigNumberString.toString assetId.

Section Queries.
Context {E : Type} (stringify : E -> string).

(** The field of [data] a method reads: [None] is an absent field. *)
Definition field {A : Type}
    (response : option (Response.content (option A) E)) : option A :=
  match response with
  | Some {| Response.data := Some (Some value) |} => Some value
  | _ => None
  end.

Section GetUserAssetConfigById.
Context {Raw UserAssetConfig : Type}.
(** What the subgraph answers to the document [gql.getUserAssetConfigById]
    with the given variables, and the mapper of ./mappers. *)
Variable fetch : variables -> result (Response.t (option Raw) E).
Variable mapUserAssetConfigToDto : Raw -> UserAssetConfig.

(** The asset ID is a [bigint]: 0 is the falsy one. *)
Definition getUserAssetConfigById (userId : string) (assetId : Z)
  : result (option UserAssetConfig) :=
  if JsString.falsy userId
  then Throw (argumentMissingError "Could not get user asset config: userId is missing.")
  else if assetId =? 0
  then Throw (argumentMissingError "Could not get user asset config: assetId is missing.")
  else
    let! response :=
      DripsSubgraphClient.query stringify
        (fetch [("configId", userAssetConfigId userId assetId)]) in
    Return (mapUserAssetConfigToDto <$> field response).
End GetUserAssetConfigById.

Section GetDripsSetEventsByUserId.
Context {Raw AssetId : Type}.
Variable fetch : variables -> result (Response.t (option (list Raw)) E).
Variable mapDripsSetEventToDto : Raw -> DripsSetEvent.t AssetId.

Definition getDripsSetEventsByUserId (userId : string)
  : result (list (DripsSetEvent.t AssetId)) :=
  if JsString.falsy userId
  then Throw (argumentMissingError "Could not get 'drip set' events: userId is missing.")
  else
    let! response := DripsSubgraphClient.query stringify (fetch [("userId", userId)]) in
    Return (default [] (map mapDripsSetEventToDto <$> field response)).

(** The whole of [getArgsForSqueezingAllDrips]: it asks for the events of
    the sender and builds the arguments from them. *)
Definition getArgsForSqueezingAllDripsOf `{EqDecision AssetId}
    (currentCycleStartDate : Z) (getIdFromAddress : string -> result AssetId)
    (userId senderId tokenAddress : string)
  : result (string * string * string * string * list DripsHistoryStruct.t) :=
  let! dripsSetEvents := getDripsSetEventsByUserId senderId in
  DripsSubgraphClient.getArgsForSqueezingAllDrips currentCycleStartDate getIdFromAddress
    userId senderId tokenAddress dripsSetEvents.
End GetDripsSetEventsByUserId.

Section GetUsersStreamingToUser.
Context {Raw SenderId AssetId : Type} `{EqDecision SenderId}.
Variable fetch : variables -> result (Response.t (option (list Raw)) E).
Variable mapDripsReceiverSeenEventToDto : Raw -> DripsReceiverSeenEvent.t SenderId AssetId.

Definition getDripsReceiverSeenEventsByReceiverId (receiverUserId : string)
  : result (list (DripsReceiverSeenEvent.t SenderId AssetId)) :=
  if JsString.falsy receiverUserId
  then Throw (argumentMissingError "Could not get streaming users: receiverUserId is missing.")
  else
    let! response :=
      DripsSubgraphClient.query stringify (fetch [("receiverUserId", receiverUserId)]) in
    match field response with
    | None | Some [] => Return []
    | Some dripsReceiverSeenEvents =>
        Return (map mapDripsReceiverSeenEventToDto dripsReceiverSeenEvents)
    end.

(** The reducer: a sender is pushed unless some ID of [unique] is it. *)
Definition pushIfNew (unique : list SenderId)
    (o : DripsReceiverSeenEvent.t SenderId AssetId) : list SenderId :=
  if negb (existsb (fun id => bool_decide (id = DripsReceiverSeenEvent.senderUserId o)) unique)
  then unique ++ [DripsReceiverSeenEvent.senderUserId o]
  else unique.

Definition uniqueSenders (dripReceiverSeenEvents : list (DripsReceiverSeenEvent.t SenderId AssetId))
  : list SenderId :=
  foldl pushIfNew [] dripReceiverSeenEvents.

Definition getUsersStreamingToUser (receiverUserId : string) : result (list SenderId) :=
  if JsString.falsy receiverUserId
  then Throw (argumentMissingError "Could not get streaming users: receiverUserId is missing.")
  else
    let! dripReceiverSeenEvents := getDripsReceiverSeenEventsByReceiverId receiverUserId in
    Return (uniqueSenders dripReceiverSeenEvents).
End GetUsersStreamingToUser.

End Queries.

End SubgraphQueries.

(** ** Sample data for the examples below *)

Module Sample.

Definition receiver (userId : string) : DripsReceiverSeen.t :=
  {| DripsReceiverSeen.receiverUserId := userId; DripsReceiverSeen.config := 1 |}.

Definition event (assetId blockTimestamp : Z) (receivers : list string)
    (dripsHistoryHash receiversHash : string) : DripsSetEvent.t Z :=
  {| DripsSetEvent.assetId := assetId;
     DripsSetEvent.dripsReceiverSeenEvents := map receiver receivers;
     DripsSetEvent.dripsHistoryHash := dripsHistoryHash;
     DripsSetEvent.blockTimestamp := blockTimestamp;
     DripsSetEvent.maxEnd := 0;
     DripsSetEvent.receiversHash := receiversHash |}.

(** Three events of a sender, fetched in no particular order; the cycle
    starts at 100. *)
Definition fetched : list (DripsSetEvent.t Z) :=
  [ event 7 50 ["alice"] "0xh50" "0xr50";
    event 7 150 ["bob"; "alice"] "0xh150" "0xr150";
    event 7 80 ["bob"] "0xh80" "0xr80" ].

Definition currentCycleStartDate : Z := 100.

(** Two events whose block timestamps are beyond the time values of a
    date and below 2^53. *)
Definition beyondTimeValues : list (DripsSetEvent.t Z) :=
  [ event 7 8800000000000000 ["bob"] "0xh88" "0xr88";
    event 7 9000000000000000 ["alice"] "0xh90" "0xr90" ].

(** The history the builder makes of [fetched] for the receiver alice. *)
Definition dripsHistory : list DripsHistoryStruct.t :=
  [ {| DripsHistoryStruct.dripsHash := "0xr80";
       DripsHistoryStruct.receivers := [];
       DripsHistoryStruct.updateTime := 80;
       DripsHistoryStruct.maxEnd := 0 |};
    {| DripsHistoryStruct.dripsHash := HashZero;
       DripsHistoryStruct.receivers :=
         [ {| DripsReceiverStruct.userId := "bob"; DripsReceiverStruct.config := 1 |};
           {| DripsReceiverStruct.userId := "alice"; DripsReceiverStruct.config := 1 |} ];
       DripsHistoryStruct.updateTime := 150;
       DripsHistoryStruct.maxEnd := 0 |} ].

Definition getIdFromAddress (tokenAddress : string) : result Z := Return 7.

Definition seen (senderUserId assetId : string)
  : DripsReceiverSeenEvent.t string string :=
  {| DripsReceiverSeenEvent.senderUserId := senderUserId;
     DripsReceiverSeenEvent.dripsSetEvent :=
       {| DripsReceiverSeenEvent.assetId := assetId |} |}.

End Sample.

(** ** Sample answers of the subgraph *)

Module SampleQueries.

Definition answer {A : Type} (value : A) : Response.t (option A) string :=
  {| Response.status := 200; Response.statusText := "OK";
     Response.json :=
       Return (Some {| Response.data := Some (Some value); Response.errors := None |}) |}.

(** The raw events are pairs of a sender and an asset. *)
Definition fetchSeen (_ : SubgraphQueries.variables)
  : result (Response.t (option (list (string * string))) string) :=
  Return (answer [("1", "10"); ("2", "20"); ("1", "30")]).

Definition mapSeen (raw : string * string) : DripsReceiverSeenEvent.t string string :=
  Sample.seen (fst raw) (snd raw).

(** The raw [DripsSet] events are the mapped ones. *)
Definition fetchDripsSet (_ : SubgraphQueries.variables)
  : result (Response.t (option (list (DripsSetEvent.t Z))) string) :=
  Return (answer Sample.fetched).

Definition fetchNone (_ : SubgraphQueries.variables)
  : result (Response.t (option (list (DripsSetEvent.t Z))) string) :=
  Return {| Response.status := 200; Response.statusText := "OK";
            Response.json := Return None |}.

End SampleQueries.

(** * Properties *)

(** ** The packed configuration *)

Section Codec.
Import DripsReceiverConfig.

Lemma testbit_above (s k n : Z) :
  0 <= s < 2 ^ k -> k <= n -> Z.testbit s n = false.
Proof.
  intros [Hs Hlt] Hn.
  destruct (Z.eq_dec s 0) as [-> | Hne]; [apply Z.bits_0 |].
  apply Z.bits_above_log2; [lia |].
  assert (Z.log2 s < k); [| lia].
  apply Z.log2_lt_pow2; lia.
Qed.

(** Shifting left by [k] and or-ing a value below [2 ^ k] is an addition:
    no bit is shared. *)
Lemma shl_or_add (a s k : Z) :
  0 <= k -> 0 <= s < 2 ^ k ->
  Z.lor (Z.shiftl a k) s = a * 2 ^ k + s.
Proof.
  intros Hk Hs.
  assert (Hdisj : Z.land (Z.shiftl a k) s = 0).
  { apply Z.bits_inj'. intros n Hn.
    rewrite Z.land_spec, Z.bits_0.
    destruct (Z.lt_ge_cases n k).
    - rewrite Z.shiftl_spec_low; auto.
    - rewrite (testbit_above s k n); auto using andb_false_r. }
  rewrite <- Z.lxor_lor, <- Z.add_nocarry_lxor by exact Hdisj.
  now rewrite Z.shiftl_mul_pow2.
Qed.

Lemma shl_nonneg (x k : Z) :
  0 <= x -> 0 <= k -> BigNumber.shl x k = Return (Z.shiftl x k).
Proof.
  intros Hx Hk. unfold BigNumber.shl, BigNumber.isNegative.
  now rewrite (proj2 (Z.ltb_ge x 0)), (proj2 (Z.ltb_ge k 0)).
Qed.

Lemma shr_nonneg (x k : Z) :
  0 <= x -> 0 <= k -> BigNumber.shr x k = Return (Z.shiftr x k).
Proof.
  intros Hx Hk. unfold BigNumber.shr, BigNumber.isNegative.
  now rewrite (proj2 (Z.ltb_ge x 0)), (proj2 (Z.ltb_ge k 0)).
Qed.

Lemma or_nonneg (x y : Z) :
  0 <= x -> 0 <= y -> BigNumber.or x y = Return (Z.lor x y).
Proof.
  intros Hx Hy. unfold BigNumber.or, BigNumber.isNegative.
  now rewrite (proj2 (Z.ltb_ge x 0)), (proj2 (Z.ltb_ge y 0)).
Qed.

Lemma and_nonneg (x y : Z) :
  0 <= x -> 0 <= y -> BigNumber.and x y = Return (Z.land x y).
Proof.
  intros Hx Hy. unfold BigNumber.and, BigNumber.isNegative.
  now rewrite (proj2 (Z.ltb_ge x 0)), (proj2 (Z.ltb_ge y 0)).
Qed.

Lemma toUint256_value (c : t) :
  0 <= amountPerSec c -> 0 <= start c < 2 ^ 32 -> 0 <= duration c < 2 ^ 32 ->
  toUint256 c = Return (amountPerSec c * 2 ^ 64 + start c * 2 ^ 32 + duration c).
Proof.
  intros Ha Hs Hd. unfold toUint256.
  rewrite shl_nonneg by lia. cbn [bind].
  rewrite or_nonneg by (try apply Z.shiftl_nonneg; lia). cbn [bind].
  rewrite shl_or_add by lia.
  rewrite shl_nonneg by lia. cbn [bind].
  rewrite or_nonneg by (try apply Z.shiftl_nonneg; lia). cbn [bind].
  rewrite shl_or_add by lia. f_equal. lia.
Qed.

Lemma toUint256_only_reads (c : t) (u : Z) :
  toUint256 {| start := start c; duration := duration c;
               amountPerSec := amountPerSec c; asUint256 := u |}
  = toUint256 c.
Proof. reflexivity. Qed.

Lemma bind_Return {A B : Type} (m : result A) (k : A -> result B) (b : B) :
  bind m k = Return b -> exists a, m = Return a /\ k a = Return b.
Proof. destruct m as [a |]; [eauto | discriminate]. Qed.

Lemma shl_Return (x k y : Z) :
  BigNumber.shl x k = Return y -> 0 <= x /\ y = Z.shiftl x k.
Proof.
  unfold BigNumber.shl, BigNumber.isNegative.
  destruct (Z.ltb_spec x 0); [discriminate |].
  destruct (k <? 0); [discriminate |]. intros [= <-]. auto.
Qed.

Lemma or_Return (x y z : Z) :
  BigNumber.or x y = Return z -> 0 <= x /\ 0 <= y /\ z = Z.lor x y.
Proof.
  unfold BigNumber.or, BigNumber.isNegative.
  destruct (Z.ltb_spec x 0); [discriminate |].
  destruct (Z.ltb_spec y 0); [discriminate |]. intros [= <-]. auto.
Qed.

Lemma toUint256_Return (c : t) (u : Z) :
  toUint256 c = Return u ->
  0 <= amountPerSec c /\ 0 <= start c /\ 0 <= duration c.
Proof.
  unfold toUint256. intros H.
  apply bind_Return in H as (x1 & H1 & H).
  apply bind_Return in H as (x2 & H2 & H).
  apply bind_Return in H as (x3 & H3 & H).
  apply bind_Return in H as (x4 & H4 & H).
  apply shl_Return in H1 as [? _].
  apply or_Return in H2 as (_ & ? & _).
  apply or_Return in H4 as (_ & ? & _).
  auto.
Qed.

(** What holds of every value the constructor returns. *)
Lemma instance_inv (c : t) :
  instance c ->
  0 < amountPerSec c /\ 0 <= start c /\ 0 <= duration c
  /\ toUint256 c = Return (asUint256 c).
Proof.
  intros (a & d & s & Hnew). unfold new, BigNumber.eq in Hnew.
  destruct (Z.eqb_spec a 0) as [| Hne]; [discriminate |].
  apply bind_Return in Hnew as (u & Hu & [= <-]).
  cbn [amountPerSec start duration asUint256].
  rewrite <- (toUint256_only_reads _ 0). cbn [amountPerSec start duration].
  apply toUint256_Return in Hu as Hsigns. cbn in Hsigns.
  split_and!; try exact Hu; lia.
Qed.

Lemma new_value (a d s : Z) :
  0 < a -> 0 <= s < 2 ^ 32 -> 0 <= d < 2 ^ 32 ->
  new a (Some d) (Some s)
  = Return {| start := s; duration := d; amountPerSec := a;
              asUint256 := a * 2 ^ 64 + s * 2 ^ 32 + d |}.
Proof.
  intros Ha Hs Hd. unfold new, BigNumber.eq. cbn [default].
  destruct (Z.eqb_spec a 0); [lia |].
  rewrite toUint256_value by (cbn; lia). reflexivity.
Qed.

Lemma fromUint256_value (a d s : Z) :
  0 < a -> 0 <= s < 2 ^ 32 -> 0 <= d < 2 ^ 32 ->
  fromUint256 (a * 2 ^ 64 + s * 2 ^ 32 + d)
  = Return {| start := s; duration := d; amountPerSec := a;
              asUint256 := a * 2 ^ 64 + s * 2 ^ 32 + d |}.
Proof.
  intros Ha Hs Hd. set (u := a * 2 ^ 64 + s * 2 ^ 32 + d).
  assert (Hu : 0 <= u) by (unfold u; lia).
  assert (H64 : Z.shiftr u 64 = a).
  { rewrite Z.shiftr_div_pow2 by lia. unfold u.
    symmetry. apply (Z.div_unique _ _ a (s * 2 ^ 32 + d)); lia. }
  assert (H32 : Z.shiftr u 32 = a * 2 ^ 32 + s).
  { rewrite Z.shiftr_div_pow2 by lia. unfold u.
    symmetry. apply (Z.div_unique _ _ _ d); lia. }
  assert (Hones : 2 ^ 32 - 1 = Z.ones 32) by reflexivity.
  assert (Hd' : Z.land u (2 ^ 32 - 1) = d).
  { rewrite Hones, Z.land_ones by lia. unfold u.
    symmetry. apply (Z.mod_unique _ _ (a * 2 ^ 32 + s)); lia. }
  assert (Hs' : Z.land (a * 2 ^ 32 + s) (2 ^ 32 - 1) = s).
  { rewrite Hones, Z.land_ones by lia.
    symmetry. apply (Z.mod_unique _ _ a); lia. }
  unfold fromUint256.
  rewrite shr_nonneg, H64 by lia. cbn [bind].
  rewrite and_nonneg, Hd' by lia. cbn [bind].
  rewrite shr_nonneg, H32 by lia. cbn [bind].
  rewrite and_nonneg, Hs' by lia. cbn [bind].
  now apply new_value.
Qed.

Lemma packed_bits (a s d i : Z) :
  0 <= s < 2 ^ 32 -> 0 <= d < 2 ^ 32 -> 0 <= i ->
  Z.testbit (a * 2 ^ 64 + s * 2 ^ 32 + d) i
  = if i <? 32 then Z.testbit d i
    else if i <? 64 then Z.testbit s (i - 32)
    else Z.testbit a (i - 64).
Proof.
  intros Hs Hd Hi.
  replace (a * 2 ^ 64 + s * 2 ^ 32 + d)
    with (Z.lor (Z.shiftl (Z.lor (Z.shiftl a 32) s) 32) d)
    by (rewrite !shl_or_add by lia; lia).
  rewrite Z.lor_spec.
  destruct (Z.ltb_spec i 32).
  - rewrite Z.shiftl_spec_low by lia. reflexivity.
  - rewrite (testbit_above d 32 i), orb_false_r by lia.
    rewrite Z.shiftl_spec, Z.lor_spec by lia.
    destruct (Z.ltb_spec i 64).
    + rewrite Z.shiftl_spec_low by lia. reflexivity.
    + rewrite (testbit_above s 32 (i - 32)), orb_false_r by lia.
      rewrite Z.shiftl_spec by lia. f_equal. lia.
Qed.

(** C1. Round trip of the codec: for every [DripsReceiverConfig] (a value
    the constructor returned) with a non-zero [amountPerSec] and with
    [start] and [duration] below 2^32, [toUint256] returns an integer and
    [fromUint256] of it returns a configuration with the same
    [amountPerSec], [start] and [duration]. *)
Theorem fromUint256_toUint256 (c : t) :
  instance c ->
  amountPerSec c <> 0 -> start c < 2 ^ 32 -> duration c < 2 ^ 32 ->
  exists u c',
    toUint256 c = Return u /\ fromUint256 u = Return c'
    /\ amountPerSec c' = amountPerSec c
    /\ start c' = start c
    /\ duration c' = duration c.
Proof.
  intros Hc _ Hs Hd.
  destruct (instance_inv c Hc) as (Ha & Hs0 & Hd0 & _).
  eexists _, _. split; [apply toUint256_value; lia |].
  split; [apply fromUint256_value; lia |]. auto.
Qed.

Lemma fromUint256_toUint256_witness :
  let c := {| start := 7; duration := 5; amountPerSec := 3;
              asUint256 := 3 * 2 ^ 64 + 7 * 2 ^ 32 + 5 |} in
  instance c /\
  exists u c',
    toUint256 c = Return u /\ fromUint256 u = Return c'
    /\ amountPerSec c' = 3 /\ start c' = 7 /\ duration c' = 5.
Proof.
  intros c.
  assert (Hc : instance c) by (exists 3, (Some 5), (Some 7); reflexivity).
  split; [exact Hc |].
  apply (fromUint256_toUint256 c Hc); cbn; lia.
Defined.

(** C2. The encoding packs the three fields into one 256-bit integer: for
    every configuration with [start] and [duration] below 2^32 and
    [amountPerSec] below 2^192, [toUint256] returns
    amountPerSec * 2^64 + start * 2^32 + duration, which is below 2^256 and
    holds [duration] in bits 0-31, [start] in bits 32-63 and [amountPerSec]
    from bit 64 on. *)
Theorem toUint256_packs (c : t) :
  instance c ->
  start c < 2 ^ 32 -> duration c < 2 ^ 32 -> amountPerSec c < 2 ^ 192 ->
  exists u,
    toUint256 c = Return u
    /\ u = amountPerSec c * 2 ^ 64 + start c * 2 ^ 32 + duration c
    /\ 0 <= u < 2 ^ 256
    /\ forall i, 0 <= i ->
         Z.testbit u i
         = if i <? 32 then Z.testbit (duration c) i
           else if i <? 64 then Z.testbit (start c) (i - 32)
           else Z.testbit (amountPerSec c) (i - 64).
Proof.
  intros Hc Hs Hd Ha.
  destruct (instance_inv c Hc) as (Ha0 & Hs0 & Hd0 & _).
  eexists. split; [apply toUint256_value; lia |].
  split; [reflexivity |]. split; [lia |].
  intros i Hi. apply packed_bits; lia.
Qed.

Lemma toUint256_packs_witness :
  let c := {| start := 7; duration := 5; amountPerSec := 3;
              asUint256 := 3 * 2 ^ 64 + 7 * 2 ^ 32 + 5 |} in
  exists u,
    toUint256 c = Return u
    /\ u = 3 * 2 ^ 64 + 7 * 2 ^ 32 + 5
    /\ 0 <= u < 2 ^ 256
    /\ forall i, 0 <= i ->
         Z.testbit u i
         = if i <? 32 then Z.testbit 5 i
           else if i <? 64 then Z.testbit 7 (i - 32)
           else Z.testbit 3 (i - 64).
Proof.
  intros c.
  apply (toUint256_packs c); [exists 3, (Some 5), (Some 7); reflexivity | cbn; lia ..].
Defined.

(** C3, as the code has it.  The constructor throws
    [DripsErrors.invalidArgument] exactly when [amountPerSec] is 0.  For a
    positive [amountPerSec] and a non-negative [duration] and [start]
    (0 when omitted) it returns an instance with these fields, whose
    [asUint256] is [toUint256] of the instance.  For a non-zero
    [amountPerSec] with a negative argument among the three, the bitwise
    operations of [BigNumber] raise a numeric fault and no instance is
    returned. *)
Theorem new_spec (a : Z) (d s : option Z) :
  ((exists message, new a d s = Throw (DripsErrors.invalidArgument message))
   <-> a = 0)
  /\ (0 < a -> 0 <= default 0 d -> 0 <= default 0 s ->
      exists c, new a d s = Return c
        /\ amountPerSec c = a /\ duration c = default 0 d /\ start c = default 0 s
        /\ toUint256 c = Return (asUint256 c))
  /\ (a <> 0 -> a < 0 \/ default 0 d < 0 \/ default 0 s < 0 ->
      exists fault operation, new a d s = Throw (NumericFault fault operation)).
Proof.
  split_and!.
  - unfold new, BigNumber.eq. destruct (Z.eqb_spec a 0) as [-> | Hne].
    + split; [reflexivity | eauto].
    + split; [| contradiction]. intros [message H]. exfalso.
      destruct (toUint256 _) as [u |] eqn:Hu; cbn [bind] in H; [discriminate |].
      injection H as ->. revert Hu.
      unfold toUint256, BigNumber.shl, BigNumber.or.
      repeat (destruct (_ || _); cbn [bind]; try discriminate).
  - intros Ha Hd Hs.
    assert (Hnew : exists c, new a d s = Return c).
    { unfold new, BigNumber.eq. destruct (Z.eqb_spec a 0); [lia |].
      unfold toUint256. cbn [amountPerSec start duration].
      rewrite shl_nonneg by lia. cbn [bind].
      rewrite or_nonneg by (try apply Z.shiftl_nonneg; lia). cbn [bind].
      assert (0 <= Z.lor (Z.shiftl a 32) (default 0 s))
        by (apply Z.lor_nonneg; split; [apply Z.shiftl_nonneg |]; lia).
      rewrite shl_nonneg by lia. cbn [bind].
      rewrite or_nonneg by (try apply Z.shiftl_nonneg; lia). cbn [bind].
      eauto. }
    destruct Hnew as [c Hnew]. exists c. split; [exact Hnew |].
    assert (Hc : instance c) by (exists a, d, s; exact Hnew).
    destruct (instance_inv c Hc) as (_ & _ & _ & Has).
    unfold new, BigNumber.eq in Hnew. destruct (Z.eqb_spec a 0); [lia |].
    apply bind_Return in Hnew as (u & _ & [= <-]). auto.
  - intros Hne Hneg. unfold new, BigNumber.eq.
    destruct (Z.eqb_spec a 0); [contradiction |].
    destruct (toUint256 _) as [u |] eqn:Hu; cbn [bind].
    + apply toUint256_Return in Hu. cbn in Hu. lia.
    + revert Hu. unfold toUint256, BigNumber.shl, BigNumber.or.
      repeat (destruct (_ || _); cbn [bind]; try discriminate);
        intros [= <-]; eauto.
Qed.

Lemma new_spec_witness :
  (exists c, new 3 None (Some 7) = Return c
     /\ amountPerSec c = 3 /\ duration c = 0 /\ start c = 7
     /\ toUint256 c = Return (asUint256 c))
  /\ (exists fault operation, new 3 (Some (-5)) None = Throw (NumericFault fault operation)).
Proof.
  split.
  - apply (proj1 (proj2 (new_spec 3 None (Some 7)))); cbn; lia.
  - apply (proj2 (proj2 (new_spec 3 (Some (-5)) None))); cbn; lia.
Defined.

(** C3 as first stated fails: -1 is a non-zero [amountPerSec], and the
    constructor returns no instance for it. *)
Lemma new_negative_amount :
  -1 <> 0
  /\ new (-1) None None = Throw (NumericFault "negative-width" "shl")
  /\ forall c, new (-1) None None <> Return c.
Proof. split_and!; [lia | reflexivity | discriminate]. Qed.

End Codec.

(** ** Destructuring a user asset configuration ID *)

Section ConfigId.
Import JsString Utils.

Lemma app_empty (v : string) : "" +:+ v = v.
Proof. reflexivity. Qed.

Lemma app_String (a : ascii) (u v : string) :
  String a u +:+ v = String a (u +:+ v).
Proof. reflexivity. Qed.

Lemma includes_app_sep (u rest : string) (sep : ascii) :
  includes (u +:+ String sep rest) sep = true.
Proof.
  induction u as [| a u IH]; [rewrite app_empty | rewrite app_String]; cbn.
  - now rewrite Ascii.eqb_refl.
  - destruct (Ascii.eqb a sep); auto.
Qed.

(** The first piece of [split] is the text before the first separator, and
    the other pieces are the [split] of the text after it. *)
Lemma split_first (s : string) (sep : ascii) :
  exists u pieces,
    split s sep = u :: pieces
    /\ includes u sep = false
    /\ ((pieces = [] /\ s = u)
        \/ exists rest, s = u +:+ String sep rest /\ split rest sep = pieces).
Proof.
  induction s as [| a s IH]; cbn.
  - exists EmptyString, []. auto.
  - destruct IH as (u & pieces & Hsplit & Hu & Hrest).
    destruct (Ascii.eqb_spec a sep) as [-> | Hne].
    + exists EmptyString, (split s sep). split_and!; auto.
      right. exists s. auto.
    + rewrite Hsplit. exists (String a u), pieces. split_and!; auto.
      * cbn. now rewrite (proj2 (Ascii.eqb_neq a sep) Hne).
      * destruct Hrest as [[-> ->] | (rest & -> & Hpieces)]; [auto |].
        right. exists rest. auto.
Qed.

Lemma includes_false_split (s : string) (sep : ascii) :
  includes s sep = false -> split s sep = [s].
Proof.
  intros Hs. destruct (split_first s sep) as (u & pieces & -> & _ & Hrest).
  destruct Hrest as [[-> ->] | (rest & -> & _)]; [reflexivity |].
  now rewrite includes_app_sep in Hs.
Qed.

Lemma includes_true_split (s : string) (sep : ascii) :
  includes s sep = true ->
  exists u a pieces,
    split s sep = u :: a :: pieces
    /\ includes u sep = false /\ includes a sep = false
    /\ (s = u +:+ String sep a
        \/ exists rest, s = u +:+ String sep (a +:+ String sep rest)).
Proof.
  intros Hs. destruct (split_first s sep) as (u & pieces & Hsplit & Hu & Hrest).
  destruct Hrest as [[-> ->] | (rest & -> & Hpieces)]; [congruence |].
  destruct (split_first rest sep) as (a & pieces' & Hsplit' & Ha & Hrest').
  exists u, a, pieces'. split_and!; auto; [congruence |].
  destruct Hrest' as [[-> ->] | (rest' & -> & _)]; eauto.
Qed.

(** C4. [destructUserAssetConfigId] throws [DripsErrors.invalidArgument]
    exactly when the ID is empty or holds no '-', and throws nothing
    else.  For an ID that holds a '-', it returns as [userId] the text
    before the first '-' and as [assetId] the text between the first and the
    second '-', or up to the end when there is no second one. *)
Theorem destructUserAssetConfigId_spec (configId : string) :
  ((exists message,
      destructUserAssetConfigId configId = Throw (DripsErrors.invalidArgument message))
   <-> configId = "" \/ includes configId "-" = false)
  /\ (forall e, destructUserAssetConfigId configId = Throw e ->
      exists message, e = DripsErrors.invalidArgument message)
  /\ (includes configId "-" = true ->
      exists u a,
        destructUserAssetConfigId configId
        = Return {| userId := Some u; assetId := Some a |}
        /\ includes u "-" = false /\ includes a "-" = false
        /\ (configId = u +:+ "-" +:+ a
            \/ exists rest, configId = u +:+ "-" +:+ a +:+ "-" +:+ rest)).
Proof.
  unfold destructUserAssetConfigId.
  destruct (includes configId "-") eqn:Hinc; cbn [negb orb].
  - assert (Hne : falsy configId = false) by (destruct configId; [discriminate | reflexivity]).
    rewrite Hne. cbn [orb].
    split_and!.
    + split; [intros [message H]; discriminate |].
      intros [-> | H]; discriminate.
    + intros e H. discriminate.
    + intros _. destruct (includes_true_split configId "-" Hinc)
        as (u & a & pieces & -> & Hu & Ha & Hshape).
      exists u, a. split_and!; auto.
  - rewrite orb_true_r. split_and!.
    + split; eauto.
    + intros e [= <-]. eauto.
    + discriminate.
Qed.

Lemma destructUserAssetConfigId_spec_witness :
  includes "12-345-6" "-" = true
  /\ exists u a,
       destructUserAssetConfigId "12-345-6"
       = Return {| userId := Some u; assetId := Some a |}
       /\ includes u "-" = false /\ includes a "-" = false
       /\ ("12-345-6" = u +:+ "-" +:+ a
           \/ exists rest, "12-345-6" = u +:+ "-" +:+ a +:+ "-" +:+ rest).
Proof.
  split; [reflexivity |].
  apply (proj2 (proj2 (destructUserAssetConfigId_spec "12-345-6"))).
  reflexivity.
Defined.

Example destructUserAssetConfigId_sample :
  destructUserAssetConfigId "12-345-6"
  = Return {| userId := Some "12"; assetId := Some "345" |}.
Proof. reflexivity. Qed.

End ConfigId.

(** ** Numerals, asset IDs and token addresses *)

Section Numerals.
Import Numeral.
Local Open Scope N_scope.

Lemma charDigit_digitChar (d : N) :
  d < 16 -> charDigit (digitChar d) = Some d.
Proof.
  intros Hd.
  assert (Hin : In d (map N.of_nat (seq 0 16))).
  { apply in_map_iff. exists (N.to_nat d). split; [lia |]. apply in_seq. lia. }
  cbn in Hin. intuition (subst; reflexivity).
Qed.

Lemma charDigit_bound (c : ascii) (d : N) :
  charDigit c = Some d -> d < 16.
Proof.
  destruct c as [[] [] [] [] [] [] [] []]; vm_compute; intros [= <-]; reflexivity.
Qed.

Lemma parse_app (base : N) (s1 s2 : string) (acc : N) :
  parse base (s1 +:+ s2) acc
  = match parse base s1 acc with
    | Some acc' => parse base s2 acc'
    | None => None
    end.
Proof.
  revert acc. induction s1 as [| c s1 IH]; intros acc; [reflexivity |].
  rewrite app_String. cbn [parse].
  destruct (charDigit c) as [d |]; [| reflexivity].
  destruct (d <? base); [apply IH | reflexivity].
Qed.

Lemma parse_digit (base d acc : N) :
  d < base -> base <= 16 ->
  parse base (String (digitChar d) EmptyString) acc = Some (acc * base + d).
Proof.
  intros Hd Hb. cbn [parse]. rewrite charDigit_digitChar by lia.
  now rewrite (proj2 (N.ltb_lt d base)).
Qed.

Lemma parse_printFuel (base : N) (fuel : nat) (n : N) :
  1 < base -> base <= 16 -> n < 2 ^ N.of_nat fuel ->
  parse base (printFuel base fuel n) 0 = Some n.
Proof.
  intros Hb1 Hb16. revert n. induction fuel as [| fuel IH]; intros n Hn.
  - cbn in Hn. assert (n = 0) as -> by lia. reflexivity.
  - cbn [printFuel]. destruct (N.ltb_spec n base) as [Hlt | Hge].
    + rewrite parse_digit by lia. f_equal; lia.
    + rewrite parse_app, IH.
      * rewrite parse_digit by (try apply N.mod_lt; lia).
        f_equal. rewrite (N.div_mod n base) at 3 by lia. lia.
      * rewrite Nat2N.inj_succ, N.pow_succ_r' in Hn.
        apply N.Div0.div_lt_upper_bound.
        apply N.lt_le_trans with (1 := Hn).
        apply N.mul_le_mono_r. lia.
Qed.

Lemma parse_print (base n : N) :
  1 < base -> base <= 16 -> parse base (print base n) 0 = Some n.
Proof.
  intros Hb1 Hb16. apply parse_printFuel; auto.
  rewrite Nat2N.inj_succ, N2Nat.id.
  destruct (N.eq_dec n 0) as [-> | Hne]; [reflexivity |].
  apply N.log2_spec. lia.
Qed.

Lemma print_nonempty (base n : N) : print base n <> EmptyString.
Proof.
  unfold print. cbn [printFuel]. destruct (n <? base); [discriminate |].
  destruct (printFuel _ _ _); discriminate.
Qed.

End Numerals.

(** ** The shape of the numerals *)

Section NumeralShape.
Import Numeral.
Local Open Scope N_scope.

Lemma length_app (s1 s2 : string) :
  String.length (s1 +:+ s2) = (String.length s1 + String.length s2)%nat.
Proof.
  induction s1 as [| c s1 IH]; [reflexivity |].
  rewrite app_String. cbn [String.length]. by rewrite IH.
Qed.

Lemma chars_app (s1 s2 : string) :
  String.list_ascii_of_string (s1 +:+ s2)
  = String.list_ascii_of_string s1 ++ String.list_ascii_of_string s2.
Proof.
  induction s1 as [| c s1 IH]; [reflexivity |].
  rewrite app_String. cbn [String.list_ascii_of_string]. by rewrite IH.
Qed.

Lemma printFuel_nonempty (base : N) (fuel : nat) (n : N) :
  n < 2 ^ N.of_nat fuel -> 0 < n -> printFuel base fuel n <> EmptyString.
Proof.
  destruct fuel as [| fuel]; cbn [printFuel].
  - cbn. lia.
  - intros _ _. destruct (n <? base); [done |].
    by destruct (printFuel base fuel (n / base)).
Qed.

(** A numeral has at most [k] digits exactly when the number is below
    [base ^ k]. *)
Lemma printFuel_length (base : N) (fuel : nat) :
  1 < base ->
  forall (n : N) (k : nat),
    n < 2 ^ N.of_nat fuel -> (1 <= k)%nat ->
    (String.length (printFuel base fuel n) <= k)%nat <-> n < base ^ N.of_nat k.
Proof.
  intros Hbase. induction fuel as [| fuel IH]; intros n k Hn Hk.
  - cbn in Hn. assert (n = 0) as -> by lia. cbn [printFuel String.length].
    split; [intros _ | lia].
    apply N.neq_0_lt_0, N.pow_nonzero. lia.
  - cbn [printFuel]. destruct (N.ltb_spec n base) as [Hlt | Hge].
    + cbn [String.length]. split; [intros _ | lia].
      apply N.lt_le_trans with (1 := Hlt).
      rewrite <- (N.pow_1_r base) at 1. apply N.pow_le_mono_r; lia.
    + rewrite length_app. cbn [String.length].
      assert (Hdiv : n / base < 2 ^ N.of_nat fuel).
      { rewrite Nat2N.inj_succ, N.pow_succ_r' in Hn.
        apply N.Div0.div_lt_upper_bound.
        apply N.lt_le_trans with (1 := Hn). apply N.mul_le_mono_r. lia. }
      assert (Hpos : 0 < n / base) by (apply N.div_str_pos; lia).
      destruct k as [| [| k]]; [lia | |].
      * split.
        -- intros Hlen. exfalso.
           apply (printFuel_nonempty base fuel (n / base) Hdiv Hpos).
           destruct (printFuel base fuel (n / base)); [done | cbn in Hlen; lia].
        -- rewrite N.pow_1_r. lia.
      * rewrite (Nat2N.inj_succ (S k)), N.pow_succ_r'.
        assert (Hlen : (String.length (printFuel base fuel (n / base)) + 1 <= S (S k))%nat
                       <-> (String.length (printFuel base fuel (n / base)) <= S k)%nat)
          by lia.
        rewrite Hlen, (IH (n / base) (S k) Hdiv ltac:(lia)).
        split.
        -- intros Hq. pose proof (N.mul_succ_div_gt n base ltac:(lia)) as Hgt.
           apply N.lt_le_trans with (1 := Hgt).
           apply N.mul_le_mono_l. lia.
        -- intros Hq. by apply N.Div0.div_lt_upper_bound.
Qed.
End NumeralShape.

Section HexShape.
Import Numeral BigNumberString Utils AddressDriverClient.

Lemma print_length (base n : N) (k : nat) :
  (1 < base)%N -> (1 <= k)%nat ->
  (String.length (print base n) <= k)%nat <-> (n < base ^ N.of_nat k)%N.
Proof.
  intros Hbase Hk. apply printFuel_length; auto.
  rewrite Nat2N.inj_succ, N2Nat.id.
  destruct (N.eq_dec n 0%N) as [-> | Hne]; [reflexivity |].
  apply N.log2_spec. lia.
Qed.

(** The digits written are the lower-case ones. *)
Lemma digitChar_lower (d : N) :
  isHexDigit (digitChar d) = true
  /\ inRangeChar "A" "F" (digitChar d) = false
  /\ Ascii.eqb (digitChar d) "-" = false.
Proof.
  unfold digitChar. remember (N.to_nat d) as i eqn:Hi. clear Hi.
  do 16 (destruct i as [| i]; [by vm_compute |]). by vm_compute.
Qed.

Lemma includes_app (s1 s2 : string) (c : ascii) :
  JsString.includes (s1 +:+ s2) c = JsString.includes s1 c || JsString.includes s2 c.
Proof.
  induction s1 as [| a s1 IH]; [reflexivity |].
  rewrite app_String. cbn [JsString.includes]. by destruct (Ascii.eqb a c).
Qed.

Lemma printFuel_lower (base : N) (fuel : nat) (n : N) :
  forallb isHexDigit (String.list_ascii_of_string (printFuel base fuel n)) = true
  /\ existsb (inRangeChar "A" "F")
       (String.list_ascii_of_string (printFuel base fuel n)) = false
  /\ JsString.includes (printFuel base fuel n) "-" = false.
Proof.
  revert n. induction fuel as [| fuel IH]; intros n; cbn [printFuel]; [done |].
  destruct (digitChar_lower n) as (Hhex & Hupper & Hminus).
  destruct (digitChar_lower (n mod base)) as (Hhex' & Hupper' & Hminus').
  destruct (n <? base)%N.
  - cbn. by rewrite Hhex, Hupper, Hminus.
  - destruct (IH (n / base)%N) as (IH1 & IH2 & IH3).
    rewrite chars_app, forallb_app, existsb_app, IH1, IH2. cbn.
    rewrite Hhex', Hupper'. split_and!; try done.
    rewrite includes_app, IH3. cbn [JsString.includes orb]. by rewrite Hminus'.
Qed.

(** The digits after the 0x of [toHexString]: an even number of them. *)
Local Abbreviation hexDigitsOf n :=
  (if Nat.even (String.length (print 16 n)) then print 16 n else "0" +:+ print 16 n).

Lemma toHexString_of_N (n : N) : toHexString (Z.of_N n) = "0x" +:+ hexDigitsOf n.
Proof.
  unfold toHexString, sign. rewrite (proj2 (Z.ltb_ge _ 0)) by lia.
  by rewrite Zabs2N.id.
Qed.

Lemma hexDigitsOf_lower (n : N) :
  forallb isHexDigit (String.list_ascii_of_string (hexDigitsOf n)) = true
  /\ existsb (inRangeChar "A" "F") (String.list_ascii_of_string (hexDigitsOf n)) = false.
Proof.
  unfold print.
  destruct (printFuel_lower 16 (S (N.to_nat (N.log2 n))) n) as (H1 & H2 & _).
  destruct (Nat.even _); [done |].
  rewrite chars_app, forallb_app, existsb_app, H1, H2. done.
Qed.

(** [toHexString] writes 40 digits exactly for the numbers from 2^152 up to
    2^160 - 1. *)
Lemma hexDigitsOf_length (n : N) :
  String.length (hexDigitsOf n) = 40%nat <-> (2 ^ 152 <= n < 2 ^ 160)%N.
Proof.
  pose proof (print_length 16 n 40 ltac:(lia) ltac:(lia)) as H40.
  pose proof (print_length 16 n 38 ltac:(lia) ltac:(lia)) as H38.
  change (16 ^ N.of_nat 40)%N with (2 ^ 160)%N in H40.
  change (16 ^ N.of_nat 38)%N with (2 ^ 152)%N in H38.
  destruct (Nat.even (String.length (print 16 n))) eqn:Heven.
  - split.
    + intros Hlen. rewrite Hlen in H40, H38. lia.
    + intros [Hlo Hhi]. assert (String.length (print 16 n) <= 40)%nat by (apply H40; lia).
      assert (~ (String.length (print 16 n) <= 38)%nat) by (rewrite H38; lia).
      assert (String.length (print 16 n) = 39 \/ String.length (print 16 n) = 40)%nat
        as [H39 | ?] by lia; [| done].
      rewrite H39 in Heven. done.
  - rewrite length_app. cbn [String.length]. split.
    + intros Hlen. assert (Hlen' : String.length (print 16 n) = 39%nat) by lia.
      rewrite Hlen' in H40, H38. lia.
    + intros [Hlo Hhi]. assert (String.length (print 16 n) <= 40)%nat by (apply H40; lia).
      assert (~ (String.length (print 16 n) <= 38)%nat) by (rewrite H38; lia).
      assert (String.length (print 16 n) = 39 \/ String.length (print 16 n) = 40)%nat
        as [? | H40'] by lia; [lia |].
      rewrite H40' in Heven. done.
Qed.

Lemma hexDigitsOf_nonempty (n : N) : hexDigitsOf n <> EmptyString.
Proof. destruct (Nat.even _); [apply print_nonempty | discriminate]. Qed.

Lemma hexDigitsOf_even (n : N) : Nat.even (String.length (hexDigitsOf n)) = true.
Proof.
  destruct (Nat.even (String.length (print 16 n))) eqn:Heven; [done |].
  rewrite length_app. cbn [String.length Nat.add].
  by rewrite Nat.even_succ, <- Nat.negb_even, Heven.
Qed.

Lemma parse_hexDigitsOf (n : N) : parse 16 (hexDigitsOf n) 0 = Some n.
Proof.
  destruct (Nat.even _).
  - apply parse_print; lia.
  - rewrite parse_app. cbn. apply parse_print; lia.
Qed.

(** The digits written are among [lowerDigits]. *)
Lemma digitChar_lowerDigits (d : N) :
  JsString.includes lowerDigits (digitChar d) = true.
Proof.
  unfold digitChar. remember (N.to_nat d) as i eqn:Hi. clear Hi.
  do 16 (destruct i as [| i]; [by vm_compute |]). by vm_compute.
Qed.

Lemma printFuel_lowerDigits (base : N) (fuel : nat) (n : N) :
  forallb (JsString.includes lowerDigits)
    (String.list_ascii_of_string (printFuel base fuel n)) = true.
Proof.
  revert n. induction fuel as [| fuel IH]; intros n; cbn [printFuel]; [done |].
  destruct (n <? base)%N.
  - cbn [String.list_ascii_of_string forallb]. by rewrite digitChar_lowerDigits.
  - rewrite chars_app, forallb_app, IH.
    cbn [String.list_ascii_of_string forallb]. by rewrite digitChar_lowerDigits.
Qed.

Lemma hexDigitsOf_lowerDigits (n : N) :
  forallb (JsString.includes lowerDigits)
    (String.list_ascii_of_string (hexDigitsOf n)) = true.
Proof.
  unfold print.
  pose proof (printFuel_lowerDigits 16 (S (N.to_nat (N.log2 n))) n) as Hlower.
  destruct (Nat.even _); [done |].
  by rewrite chars_app, forallb_app, Hlower.
Qed.

Lemma isHex40_hexDigitsOf (n : N) :
  isHex40 (hexDigitsOf n) = bool_decide (2 ^ 152 <= n < 2 ^ 160)%N.
Proof.
  unfold isHex40. destruct (hexDigitsOf_lower n) as [-> _]. rewrite andb_true_r.
  apply bool_decide_ext, hexDigitsOf_length.
Qed.

Lemma isAddress_toHexString (n : N) :
  isAddress (toHexString (Z.of_N n)) = bool_decide (2 ^ 152 <= n < 2 ^ 160)%N.
Proof.
  rewrite toHexString_of_N. unfold isAddress.
  change (strip0x ("0x" +:+ hexDigitsOf n)) with (Some (hexDigitsOf n)).
  apply isHex40_hexDigitsOf.
Qed.

End HexShape.

Section AssetIds.
Import Numeral BigNumberString Utils.

Lemma from_decimal (s : string) (n : N) :
  s <> EmptyString -> parse 10 s 0 = Some n -> from s = Return (Z.of_N n).
Proof.
  destruct s as [| c s]; [contradiction |]. intros _ Hparse.
  assert (Hc : Ascii.eqb c "-" = false).
  { destruct (Ascii.eqb_spec c "-") as [-> |]; [discriminate | reflexivity]. }
  assert (Hhex : hexValue (String c s) = None).
  { unfold hexValue, strip0x. destruct s as [| c1 s]; [reflexivity |].
    destruct (Ascii.eqb_spec c "0") as [-> |]; [| reflexivity].
    destruct (Ascii.eqb_spec c1 "x") as [-> |]; [| reflexivity].
    discriminate Hparse. }
  unfold from, stripSign. rewrite Hc, Hhex. unfold decimalValue.
  cbn [JsString.falsy]. now rewrite Hparse.
Qed.

Lemma from_hex (hex : string) (n : N) :
  hex <> EmptyString ->
  parse 16 hex 0 = Some n -> from ("0x" +:+ hex) = Return (Z.of_N n).
Proof.
  intros Hne Hparse.
  assert (Hhex : hexValue (String "0" (String "x" hex)) = Some n).
  { unfold hexValue. cbn [strip0x Ascii.eqb Bool.eqb andb].
    destruct hex; [contradiction | exact Hparse]. }
  unfold from. change ("0x" +:+ hex) with (String "0" (String "x" hex)).
  cbv beta iota delta [stripSign]. cbn [Ascii.eqb Bool.eqb].
  now rewrite Hhex.
Qed.

Lemma parse_hex_total (hex : string) (acc : N) :
  forallb isHexDigit (String.list_ascii_of_string hex) = true ->
  exists n, parse 16 hex acc = Some n.
Proof.
  revert acc. induction hex as [| c hex IH]; intros acc; cbn; [eauto |].
  unfold isHexDigit at 1. intros [Hc Hrest]%andb_prop.
  destruct (charDigit c) as [d |] eqn:Hd; [| discriminate].
  apply charDigit_bound in Hd. rewrite (proj2 (N.ltb_lt d 16) Hd). auto.
Qed.

Lemma strip0x_Some (s hex : string) :
  strip0x s = Some hex -> s = "0x" +:+ hex.
Proof.
  destruct s as [| c0 [| c1 s]]; cbn; try discriminate.
  destruct (Ascii.eqb_spec c0 "0") as [-> |]; [| discriminate].
  destruct (Ascii.eqb_spec c1 "x") as [-> |]; [| discriminate].
  now intros [= ->].
Qed.

Lemma isAddress_inv (address : string) :
  isAddress address = true ->
  exists hex, address = "0x" +:+ hex
    /\ hex <> EmptyString
    /\ forallb isHexDigit (String.list_ascii_of_string hex) = true.
Proof.
  unfold isAddress. intros Haddr.
  destruct (strip0x address) as [hex |] eqn:Hstrip; [| discriminate].
  apply andb_prop in Haddr as [Hlen Hdigits].
  apply strip0x_Some in Hstrip. exists hex. split_and!; auto.
  intros ->. discriminate.
Qed.

Lemma toString_of_N (n : N) : toString (Z.of_N n) = print 10 n.
Proof.
  unfold toString, sign. rewrite (proj2 (Z.ltb_ge _ 0)) by lia.
  now rewrite Zabs2N.id.
Qed.

Lemma from_toString_of_N (n : N) : from (toString (Z.of_N n)) = Return (Z.of_N n).
Proof.
  rewrite toString_of_N. apply from_decimal.
  - apply print_nonempty.
  - apply parse_print; lia.
Qed.

Lemma from_toHexString_of_N (n : N) :
  from (toHexString (Z.of_N n)) = Return (Z.of_N n).
Proof.
  unfold toHexString, sign. rewrite (proj2 (Z.ltb_ge _ 0)) by lia.
  rewrite Zabs2N.id. rewrite app_empty. apply from_hex.
  - destruct (Nat.even _); [apply print_nonempty | discriminate].
  - destruct (Nat.even _).
    + apply parse_print; lia.
    + rewrite parse_app. cbn. apply parse_print; lia.
Qed.

(** C9. Round trip between token addresses and asset IDs.  A valid
    address is 0x and hex digits that denote an integer [n].
    [getAssetIdFromAddress] returns the decimal numeral of [n], and
    [getTokenAddressFromAssetId] of that asset ID returns a hex string: 0x
    and an even, non-zero number of lower-case hex digits that denote [n]
    again.  The strings need not be equal: an address with leading zeros
    comes back without them, one in upper case comes back in lower case,
    and an address of 40 lower-case digits without leading zeros comes back
    as it is. *)
Theorem getTokenAddressFromAssetId_getAssetIdFromAddress :
  (forall address : string,
     isAddress address = true ->
     exists (n : N) (digits assetId hex : string),
       address = "0x" +:+ digits
       /\ parse 16 digits 0 = Some n
       /\ getAssetIdFromAddress address = Return assetId
       /\ assetId = print 10 n
       /\ parse 10 assetId 0 = Some n
       /\ getTokenAddressFromAssetId assetId = Return ("0x" +:+ hex)
       /\ hex <> EmptyString
       /\ Nat.even (String.length hex) = true
       /\ forallb (JsString.includes lowerDigits) (String.list_ascii_of_string hex) = true
       /\ parse 16 hex 0 = Some n)
  /\ (let address := "0x00000000000000000000000000000000000000ff" in
      isAddress address = true
      /\ (let! assetId := getAssetIdFromAddress address in
          getTokenAddressFromAssetId assetId) = Return "0xff"
      /\ "0xff" <> address)
  /\ (let address := "0xABCDEFABCDEFABCDEFABCDEFABCDEFABCDEFABCD" in
      isAddress address = true
      /\ (let! assetId := getAssetIdFromAddress address in
          getTokenAddressFromAssetId assetId)
         = Return "0xabcdefabcdefabcdefabcdefabcdefabcdefabcd"
      /\ "0xabcdefabcdefabcdefabcdefabcdefabcdefabcd" <> address)
  /\ (let address := "0x8ba1f109551bd432803012645ac136ddd64dba72" in
      isAddress address = true
      /\ (let! assetId := getAssetIdFromAddress address in
          getTokenAddressFromAssetId assetId) = Return address).
Proof.
  split.
  - intros address Haddr.
    destruct (isAddress_inv address Haddr) as (digits & Heq & Hne & Hdigits).
    destruct (parse_hex_total digits 0 Hdigits) as [n Hn].
    assert (Hfrom : from address = Return (Z.of_N n))
      by (rewrite Heq; now apply from_hex).
    exists n, digits, (print 10 n),
      (if Nat.even (String.length (print 16 n)) then print 16 n
       else "0" +:+ print 16 n).
    split_and!; auto.
    + unfold getAssetIdFromAddress, guardAgainstInvalidAddress.
      rewrite Haddr. cbn [bind]. rewrite Hfrom. cbn [bind].
      now rewrite toString_of_N.
    + apply parse_print; lia.
    + unfold getTokenAddressFromAssetId.
      rewrite <- toString_of_N, from_toString_of_N. cbn [bind].
      by rewrite toHexString_of_N.
    + apply hexDigitsOf_nonempty.
    + apply hexDigitsOf_even.
    + apply hexDigitsOf_lowerDigits.
    + apply parse_hexDigitsOf.
  - split; [| split]; cbv zeta.
    + split_and!; [reflexivity | vm_compute; reflexivity | discriminate].
    + split_and!; [reflexivity | vm_compute; reflexivity | discriminate].
    + split; [reflexivity | vm_compute; reflexivity].
Qed.

Lemma getTokenAddressFromAssetId_getAssetIdFromAddress_witness :
  let address := "0x8ba1f109551bD432803012645Ac136ddd64DBA72" in
  isAddress address = true
  /\ exists (n : N) (digits assetId hex : string),
       address = "0x" +:+ digits
       /\ parse 16 digits 0 = Some n
       /\ getAssetIdFromAddress address = Return assetId
       /\ assetId = print 10 n
       /\ parse 10 assetId 0 = Some n
       /\ getTokenAddressFromAssetId assetId = Return ("0x" +:+ hex)
       /\ hex <> EmptyString
       /\ Nat.even (String.length hex) = true
       /\ forallb (JsString.includes lowerDigits) (String.list_ascii_of_string hex) = true
       /\ parse 16 hex 0 = Some n.
Proof.
  intros address. split; [reflexivity |].
  apply (proj1 getTokenAddressFromAssetId_getAssetIdFromAddress address).
  reflexivity.
Defined.

Example getAssetIdFromAddress_sample :
  getAssetIdFromAddress "0x8ba1f109551bD432803012645Ac136ddd64DBA72"
  = Return "797161134358056856230896843146392277790002887282"
  /\ getTokenAddressFromAssetId "797161134358056856230896843146392277790002887282"
     = Return "0x8ba1f109551bd432803012645ac136ddd64dba72".
Proof. split; vm_compute; reflexivity. Qed.

Example toHexString_samples :
  toHexString 0 = "0x00" /\ toHexString 255 = "0xff" /\ toHexString 256 = "0x0100"
  /\ toString 0 = "0" /\ toString (-42) = "-42"
  /\ from "0x" = Throw (InvalidBigNumberString "0x") /\ from "-0x1F" = Return (-31)
  /\ from "" = Throw (InvalidBigNumberString "")
  /\ from "12a" = Throw (InvalidBigNumberString "12a").
Proof. repeat split. Qed.

End AssetIds.

(** ** The squeeze-argument builder *)

Section ResultLists.
Context {A B : Type} (f : A -> result B).

Lemma mapM_Return (l : list A) (ys : list B) :
  mapM f l = Return ys -> Forall2 (fun x y => f x = Return y) l ys.
Proof.
  revert ys. induction l as [| x l IH]; intros ys; cbn [mapM].
  - intros [= <-]. constructor.
  - destruct (f x) as [y |] eqn:Hy; cbn [bind]; [| discriminate].
    destruct (mapM f l) as [ys' |]; cbn [bind]; [| discriminate].
    intros [= <-]. constructor; auto.
Qed.

Lemma mapM_total (l : list A) :
  (forall x, x ∈ l -> exists y, f x = Return y) ->
  exists ys, mapM f l = Return ys.
Proof.
  induction l as [| x l IH]; intros Hf; cbn [mapM]; [eauto |].
  destruct (Hf x) as [y ->]; [left |]. cbn [bind].
  destruct IH as [ys ->]; [intros x' Hx'; apply Hf; now right |].
  cbn [bind]. eauto.
Qed.
End ResultLists.

Lemma filter_none {A : Type} (P : A -> Prop) `{forall x, Decision (P x)} (l : list A) :
  Forall (fun x => ~ P x) l -> filter P l = [].
Proof.
  induction 1 as [| x l Hx _ IH]; [done |].
  by rewrite filter_cons_False.
Qed.

Section NumberFacts.
Import JsNumber.

(** A Number that [round] returns: finite below 2^1024, or infinite. *)
Local Abbreviation inRange v :=
  (match v with
   | Finite z => Z.abs z < 2 ^ 1024
   | Infinity _ => True
   | NaN => False
   end).

Lemma round_safe (x : Z) : Z.abs x < 2 ^ 53 -> round x = Finite x.
Proof.
  intros Hx. unfold round. cbv zeta.
  by rewrite (proj2 (Z.ltb_lt (Z.abs x) (2 ^ 53)) Hx).
Qed.

Lemma round_large (x : Z) :
  2 ^ 53 <= Z.abs x ->
  (exists m, round x = Finite (Z.sgn x * m) /\ 2 ^ 53 <= m < 2 ^ 1024)
  \/ round x = Infinity (x <? 0).
Proof.
  intros Hx. unfold round. cbv zeta.
  rewrite (proj2 (Z.ltb_ge (Z.abs x) (2 ^ 53)) Hx).
  set (a := Z.abs x) in *. set (e := Z.log2 a - 52).
  set (q := Z.shiftr a e).
  set (q' := if _ : bool then q + 1 else q).
  destruct (Z.leb_spec (2 ^ 1024) (q' * 2 ^ e)) as [Hinf | Hfin]; [by right | left].
  exists (q' * 2 ^ e). split; [done |]. split; [| done].
  assert (Hpos : 0 < a) by (pose proof (Z.pow_pos_nonneg 2 53); lia).
  assert (Hlog : 53 <= Z.log2 a) by (by apply Z.log2_le_pow2).
  assert (He : 0 <= e) by (unfold e; lia).
  pose proof (Z.log2_spec a Hpos) as [Hlow _].
  assert (Hsplit : 2 ^ Z.log2 a = 2 ^ 52 * 2 ^ e).
  { rewrite <- Z.pow_add_r by lia. f_equal. unfold e. lia. }
  assert (Hpow : 0 < 2 ^ e) by (apply Z.pow_pos_nonneg; lia).
  assert (Hq : 2 ^ 52 <= q).
  { unfold q. rewrite Z.shiftr_div_pow2 by done.
    apply Z.div_le_lower_bound; [done |]. lia. }
  assert (Hq' : q <= q') by (unfold q'; destruct (_ : bool); lia).
  assert (Hmono : 2 ^ 53 <= 2 ^ Z.log2 a) by (apply Z.pow_le_mono_r; lia).
  nia.
Qed.

Lemma round_inRange (x : Z) : inRange (round x).
Proof.
  destruct (Z.lt_ge_cases (Z.abs x) (2 ^ 53)) as [Hsafe | Hlarge].
  - rewrite (round_safe x Hsafe).
    assert (2 ^ 53 <= 2 ^ 1024) by (apply Z.pow_le_mono_r; lia). lia.
  - destruct (round_large x Hlarge) as [(m & -> & Hm) | ->]; [| done].
    destruct x; cbn [Z.sgn]; lia.
Qed.

(** The sign of a difference survives the rounding. *)
Lemma isPositive_round (d : Z) : isPositive (round d) = (0 <? d).
Proof.
  destruct (Z.lt_ge_cases (Z.abs d) (2 ^ 53)) as [Hsafe | Hlarge].
  - by rewrite (round_safe d Hsafe).
  - assert (H53 : 0 < 2 ^ 53) by (by apply Z.pow_pos_nonneg).
    destruct (round_large d Hlarge) as [(m & -> & Hm) | ->]; cbn [isPositive].
    + destruct d; cbn [Z.sgn] in *; [lia | |].
      * rewrite (proj2 (Z.ltb_lt 0 (1 * m))) by lia. done.
      * rewrite (proj2 (Z.ltb_ge 0 (-1 * m))) by lia. done.
    + destruct d; cbn in *; [lia | done | done].
Qed.

Lemma isPositive_minus (x y : t) :
  inRange x -> inRange y -> isPositive (minus x y) = (weight y <? weight x).
Proof.
  assert (H1024 : 0 < 2 ^ 1024) by (by apply Z.pow_pos_nonneg).
  destruct x as [a | negative |], y as [b | negative' |]; cbn [minus weight];
    intros Hx Hy; try done.
  - rewrite isPositive_round.
    destruct (Z.ltb_spec 0 (a - b)), (Z.ltb_spec b a); (done || lia).
  - cbn [isPositive]. destruct negative'; cbn [negb].
    + symmetry. apply Z.ltb_lt. lia.
    + symmetry. apply Z.ltb_ge. lia.
  - cbn [isPositive]. destruct negative; cbn [negb].
    + symmetry. apply Z.ltb_ge. lia.
    + symmetry. apply Z.ltb_lt. lia.
  - destruct negative, negative'; cbn [Bool.eqb isPositive negb]; symmetry;
      (apply Z.ltb_ge; lia) || (apply Z.ltb_lt; lia).
Qed.

(** [Number] is exact on a time value; beyond 2^53 it stays beyond. *)
Lemma weight_Number_safe (x : Z) : Z.abs x < 2 ^ 53 -> weight (Number x) = x.
Proof. intros Hx. unfold Number. by rewrite (round_safe x Hx). Qed.

Lemma weight_Number_large (x : Z) : 2 ^ 53 <= x -> 2 ^ 53 <= weight (Number x).
Proof.
  intros Hx. assert (H53 : 0 < 2 ^ 53) by (by apply Z.pow_pos_nonneg).
  assert (Hmono : 2 ^ 53 <= 2 ^ 1024) by (apply Z.pow_le_mono_r; lia).
  unfold Number.
  destruct (round_large x) as [(m & -> & Hm) | ->]; [lia | |]; cbn [weight].
  - destruct x; cbn [Z.sgn]; lia.
  - rewrite (proj2 (Z.ltb_ge x 0)) by lia. done.
Qed.

Lemma maxTime_safe : JsDate.maxTime < 2 ^ 53.
Proof. reflexivity. Qed.

Lemma weight_Number_time (x : Z) :
  Z.abs x <= JsDate.maxTime -> weight (Number x) = x.
Proof. intros Hx. apply weight_Number_safe. pose proof maxTime_safe. lia. Qed.

(** What sorts no later than a time value is no later than it. *)
Lemma weight_Number_le (x v : Z) :
  Z.abs v <= JsDate.maxTime -> weight (Number x) <= v -> x <= v.
Proof.
  intros Hv Hx. pose proof maxTime_safe as Hmax.
  destruct (Z.lt_ge_cases (Z.abs x) (2 ^ 53)) as [Hsafe | Hlarge].
  - by rewrite (weight_Number_safe x Hsafe) in Hx.
  - destruct (Z.le_gt_cases 0 x) as [Hpos | Hneg]; [| lia].
    pose proof (weight_Number_large x). lia.
Qed.

(** The date of a timestamp is valid exactly for a time value. *)
Lemma new_Number (x : Z) :
  JsDate.new (Number x) = if Z.abs x <=? JsDate.maxTime then Some x else None.
Proof.
  pose proof maxTime_safe as Hmax.
  destruct (Z.leb_spec (Z.abs x) JsDate.maxTime) as [Htime | Hbeyond].
  - unfold Number. rewrite round_safe by lia. cbn [JsDate.new].
    by rewrite (proj2 (Z.leb_le _ _) Htime).
  - destruct (Z.lt_ge_cases (Z.abs x) (2 ^ 53)) as [Hsafe | Hlarge].
    + unfold Number. rewrite round_safe by done. cbn [JsDate.new].
      by rewrite (proj2 (Z.leb_gt _ _) Hbeyond).
    + unfold Number.
      destruct (round_large x Hlarge) as [(m & -> & Hm) | ->]; [| done].
      cbn [JsDate.new]. rewrite (proj2 (Z.leb_gt _ _)); [done |].
      destruct x; cbn [Z.sgn]; lia.
Qed.

Lemma ge_new_Number (x start : Z) :
  JsDate.ge (JsDate.new (Number x)) (Some start)
  = (Z.abs x <=? JsDate.maxTime) && (start <=? x).
Proof. rewrite new_Number. by destruct (Z.abs x <=? JsDate.maxTime). Qed.

Example round_samples :
  round (2 ^ 53 + 1) = Finite (2 ^ 53)
  /\ round (2 ^ 53 + 3) = Finite (2 ^ 53 + 4)
  /\ round (- (2 ^ 60 + 1)) = Finite (- 2 ^ 60)
  /\ round (2 ^ 1024 - 2 ^ 970 - 1) = Finite (2 ^ 1024 - 2 ^ 971)
  /\ round (2 ^ 1024 - 2 ^ 970) = Infinity false
  /\ JsDate.new (Number 8640000000000000) = Some 8640000000000000
  /\ JsDate.new (Number 8640000000000001) = None
  /\ isPositive (minus (Number (2 ^ 53 + 1)) (Number (2 ^ 53))) = false
  /\ isPositive (minus (Number (2 ^ 2000)) (Number (2 ^ 3000))) = false.
Proof. repeat split; vm_compute; reflexivity. Qed.

End NumberFacts.

Section Sorting.
Import JsNumber.
Context {A : Type} (compareFn : A -> A -> JsNumber.t) (key : A -> Z).
Hypothesis compareFn_key :
  forall a b, isPositive (compareFn a b) = (key a <? key b).

(** Descending by [key], as a comparator sorts that is positive exactly
    when its first argument has the smaller key. *)
Local Abbreviation desc := (fun a b : A => key b <= key a).

Lemma sortInsert_Permutation (x : A) (l : list A) :
  sortInsert compareFn x l ≡ₚ x :: l.
Proof.
  induction l as [| y l IH]; cbn [sortInsert]; [reflexivity |].
  destruct (isPositive (compareFn x y)); [| reflexivity].
  rewrite IH. apply Permutation_swap.
Qed.

Lemma sort_Permutation (l : list A) : sort compareFn l ≡ₚ l.
Proof.
  induction l as [| x l IH]; cbn; [reflexivity |].
  fold (sort compareFn l). now rewrite sortInsert_Permutation, IH.
Qed.

Lemma sortInsert_sorted (x : A) (l : list A) :
  StronglySorted desc l -> StronglySorted desc (sortInsert compareFn x l).
Proof.
  induction l as [| y l IH]; cbn [sortInsert]; intros Hl.
  - repeat constructor.
  - apply StronglySorted_cons in Hl as [Hy Hl]. rewrite compareFn_key.
    destruct (Z.ltb_spec (key x) (key y)) as [Hlt | Hge].
    + constructor; [auto |].
      rewrite sortInsert_Permutation. constructor; [lia | exact Hy].
    + constructor; [now constructor |]. constructor; [lia |].
      eapply Forall_impl; [exact Hy |]. cbn. intros z Hz. lia.
Qed.

Lemma sort_sorted (l : list A) : StronglySorted desc (sort compareFn l).
Proof.
  induction l as [| x l IH]; cbn; [constructor |].
  now apply sortInsert_sorted.
Qed.

Lemma reverse_sorted (l : list A) :
  StronglySorted desc l ->
  StronglySorted (fun a b => key a <= key b) (reverse l).
Proof.
  induction l as [| x l IH]; [constructor |].
  intros [Hx Hl]%StronglySorted_cons. rewrite reverse_cons.
  apply StronglySorted_app_2; [| auto | repeat constructor].
  intros y z Hy ->%list_elem_of_singleton.
  rewrite elem_of_reverse in Hy.
  rewrite Forall_forall in Hx. now apply Hx.
Qed.
End Sorting.

Section Squeeze.
Import DripsSubgraphClient.
Context {AssetId : Type} `{EqDecision AssetId}.
Variable currentCycleStartDate : Z.
Variable getIdFromAddress : string -> result AssetId.

Local Abbreviation event := (DripsSetEvent.t AssetId).
Local Abbreviation ts := (@DripsSetEvent.blockTimestamp AssetId).
Local Abbreviation inCycle := (fun e : event => currentCycleStartDate <= ts e).
Local Abbreviation desc := (fun a b : event => ts b <= ts a).
Local Abbreviation keep := (keepCurrentCycle currentCycleStartDate).
Local Abbreviation selectedOf := (squeezableDripsSetEvents currentCycleStartDate).
Local Abbreviation shouldSqueezeOf := (shouldSqueeze getIdFromAddress).
Local Abbreviation itemOf := (historyItem getIdFromAddress).
Local Abbreviation getArgs :=
  (getArgsForSqueezingAllDrips currentCycleStartDate getIdFromAddress).

(** The key the comparator sorts by: the Number of the timestamp. *)
Local Abbreviation numberOf :=
  (fun e : event => JsNumber.weight (JsNumber.Number (ts e))).
Local Abbreviation numberDesc := (fun a b : event => numberOf b <= numberOf a).

Lemma byBlockTimestampDesc_key (a b : event) :
  JsNumber.isPositive (byBlockTimestampDesc a b) = (numberOf a <? numberOf b).
Proof.
  unfold byBlockTimestampDesc.
  apply isPositive_minus; apply round_inRange.
Qed.

Lemma sorted_numberDesc (fetched : list event) :
  StronglySorted numberDesc (sort byBlockTimestampDesc fetched).
Proof. apply (sort_sorted byBlockTimestampDesc numberOf byBlockTimestampDesc_key). Qed.

Lemma keepCurrentCycle_prefix (l : list event) : exists rest, l = keep l ++ rest.
Proof.
  induction l as [| e l [rest IH]]; cbn [keepCurrentCycle]; [by exists [] |].
  destruct (JsDate.ge _ _).
  - exists rest. cbn. by rewrite <- IH.
  - by exists l.
Qed.

(** The events kept are in descending order of their timestamps as
    integers, although the sort compares their Numbers: every event that
    the loop goes on from has a time value for its timestamp. *)
Lemma keepCurrentCycle_sorted (l : list event) :
  StronglySorted numberDesc l -> StronglySorted desc (keep l).
Proof.
  induction l as [| e l IH]; cbn [keepCurrentCycle]; [constructor |].
  intros [He Hl]%StronglySorted_cons. rewrite ge_new_Number.
  destruct (Z.leb_spec (Z.abs (ts e)) JsDate.maxTime) as [Htime | _]; cbn [andb];
    [| repeat constructor].
  destruct (currentCycleStartDate <=? ts e); [| repeat constructor].
  constructor; [auto |].
  destruct (keepCurrentCycle_prefix l) as [rest Hrest].
  rewrite Hrest in He. apply Forall_app in He as [He _].
  eapply Forall_impl; [exact He |]. cbn. intros e' He'.
  apply weight_Number_le; [done |].
  by rewrite (weight_Number_time (ts e) Htime) in He'.
Qed.

Lemma selected_sorted (fetched : list event) :
  StronglySorted desc (selectedOf fetched).
Proof. apply keepCurrentCycle_sorted, sorted_numberDesc. Qed.

(** On time values the sort is by the timestamps themselves. *)
Lemma sorted_desc (l : list event) :
  Forall isTimeValue l -> StronglySorted numberDesc l -> StronglySorted desc l.
Proof.
  induction 1 as [| e l He Hl IH]; [constructor |].
  intros [Hfirst Hrest]%StronglySorted_cons. constructor; [auto |].
  rewrite Forall_forall in Hfirst, Hl. apply Forall_forall. intros e' He'.
  specialize (Hfirst e' He'). cbn in Hfirst.
  by rewrite (weight_Number_time (ts e) He),
             (weight_Number_time (ts e') (Hl e' He')) in Hfirst.
Qed.

Lemma keepCurrentCycle_spec (l : list event) :
  Forall isTimeValue l ->
  StronglySorted desc l ->
  exists older,
    keep l = filter inCycle l ++ older
    /\ mostRecentBefore currentCycleStartDate l older.
Proof.
  induction l as [| e l IH]; cbn [keepCurrentCycle].
  - intros _ _. exists []. split; [done |]. left. split; [done | constructor].
  - intros [Htime Htimes]%Forall_cons [He Hl]%StronglySorted_cons.
    rewrite Forall_forall in He. rewrite ge_new_Number.
    rewrite (proj2 (Z.leb_le _ _) Htime). cbn [andb].
    destruct (Z.leb_spec currentCycleStartDate (ts e)) as [Hin | Hout].
    + destruct (IH Htimes Hl) as (older & -> & Holder). exists older.
      rewrite filter_cons_True by done. split; [done |].
      destruct Holder as [[-> Hall] | (p & -> & Hp & Hlt & Hmax)].
      * left. split; [done | by constructor].
      * right. exists p. split_and!; auto; [by right |].
        intros e' [-> | He']%elem_of_cons Hlt'; [lia | auto].
    + exists [e]. split.
      * rewrite filter_cons_False by lia.
        rewrite filter_none; [done |]. apply Forall_forall.
        intros e' He'. specialize (He e' He'). cbn in *. lia.
      * right. exists e. split_and!; auto; [by left |].
        intros e' [-> | He']%elem_of_cons _; [lia | by apply He].
Qed.

Lemma selected_spec (fetched : list event) :
  Forall isTimeValue fetched ->
  exists older,
    selectedOf fetched ≡ₚ filter inCycle fetched ++ older
    /\ mostRecentBefore currentCycleStartDate fetched older.
Proof.
  intros Htimes. unfold squeezableDripsSetEvents.
  pose proof (sort_Permutation byBlockTimestampDesc fetched) as Hperm.
  assert (Htimes' : Forall isTimeValue (sort byBlockTimestampDesc fetched))
    by (by rewrite Hperm).
  destruct (keepCurrentCycle_spec _ Htimes'
              (sorted_desc _ Htimes' (sorted_numberDesc fetched)))
    as (older & Hkeep & Holder).
  exists older. split.
  - rewrite Hkeep. by rewrite Hperm.
  - destruct Holder as [[-> Hall] | (p & -> & Hp & Hlt & Hmax)].
    + left. split; [done |]. by rewrite <- Hperm.
    + right. exists p. split_and!; auto; [by rewrite <- Hperm |].
      intros e He. apply Hmax. by rewrite Hperm.
Qed.

(** The inner loop finds a receiver exactly when some receiver is
    [userId] and the event's asset is the token's. *)
Lemma shouldSqueeze_Return (userId tokenAddress : string) (e : event)
    (receivers : list DripsReceiverSeen.t) (b : bool) :
  shouldSqueezeOf userId tokenAddress e receivers = Return b ->
  (b = true <->
   (exists r, r ∈ receivers /\ DripsReceiverSeen.receiverUserId r = userId)
   /\ getIdFromAddress tokenAddress = Return (DripsSetEvent.assetId e)).
Proof.
  induction receivers as [| r receivers IH]; cbn [shouldSqueeze].
  - intros [= <-]. split; [done |]. intros [(r & Hr & _) _]. by apply elem_of_nil in Hr.
  - case_bool_decide as Hr.
    + destruct (getIdFromAddress tokenAddress) as [a |] eqn:Ha; cbn [bind]; [| done].
      case_bool_decide as Hasset.
      * intros [= <-]. split; [| done]. intros _. split; [| by rewrite Hasset].
        exists r. split; [by left | done].
      * intros Hrest. specialize (IH Hrest). split.
        -- intros Hb. apply IH in Hb as [_ [=]]. done.
        -- intros [_ [=]]. done.
    + cbn [bind]. intros Hrest. specialize (IH Hrest). rewrite IH.
      split; intros [(r' & Hr' & Hu) Hid]; (split; [| done]); exists r'.
      * split; [by right | done].
      * apply elem_of_cons in Hr' as [-> | Hr']; [done | auto].
Qed.

Lemma shouldSqueeze_total (userId tokenAddress : string) (e : event)
    (receivers : list DripsReceiverSeen.t) (a : AssetId) :
  getIdFromAddress tokenAddress = Return a ->
  exists b, shouldSqueezeOf userId tokenAddress e receivers = Return b.
Proof.
  intros Ha. induction receivers as [| r receivers IH]; cbn [shouldSqueeze]; [eauto |].
  rewrite Ha. case_bool_decide; cbn [bind]; [| done].
  case_bool_decide; eauto.
Qed.

Lemma historyItem_Return (userId tokenAddress : string) (e : event)
    (item : DripsHistoryStruct.t) :
  itemOf userId tokenAddress e = Return item ->
  exists b,
    shouldSqueezeOf userId tokenAddress e (DripsSetEvent.dripsReceiverSeenEvents e)
    = Return b
    /\ DripsHistoryStruct.dripsHash item
       = (if b then HashZero else DripsSetEvent.receiversHash e)
    /\ (b = true <-> DripsHistoryStruct.receivers item <> [])
    /\ DripsHistoryStruct.updateTime item = ts e
    /\ DripsHistoryStruct.maxEnd item = DripsSetEvent.maxEnd e.
Proof.
  unfold historyItem. intros Hitem.
  destruct (shouldSqueeze _ _ _ _ _) as [b |] eqn:Hb; cbn [bind] in Hitem; [| done].
  injection Hitem as <-. exists b. cbn. split_and!; auto.
  destruct b; [| done]. split; [| done]. intros _.
  apply shouldSqueeze_Return in Hb as [Hb _].
  destruct (Hb eq_refl) as [(r & Hr & _) _].
  destruct (DripsSetEvent.dripsReceiverSeenEvents e); [by apply elem_of_nil in Hr | done].
Qed.

Lemma getArgs_Return (userId senderId tokenAddress : string) (fetched : list event)
    (u t s historyHash : string) (dripsHistory : list DripsHistoryStruct.t) :
  getArgs userId senderId tokenAddress fetched
  = Return (u, t, s, historyHash, dripsHistory) ->
  u = userId /\ t = tokenAddress /\ s = senderId
  /\ historyHash = historyHashOf (selectedOf fetched)
  /\ Forall2 (fun item e => itemOf userId tokenAddress e = Return item)
       dripsHistory (reverse (selectedOf fetched)).
Proof.
  unfold getArgsForSqueezingAllDrips. intros Hargs.
  destruct (mapM _ _) as [items |] eqn:Hitems; cbn [bind] in Hargs; [| done].
  injection Hargs as <- <- <- <- <-. split_and!; auto.
  apply Forall2_reverse, Forall2_flip. by apply mapM_Return.
Qed.

Lemma getArgs_total (userId senderId tokenAddress : string) (fetched : list event)
    (a : AssetId) :
  getIdFromAddress tokenAddress = Return a ->
  exists historyHash dripsHistory,
    getArgs userId senderId tokenAddress fetched
    = Return (userId, tokenAddress, senderId, historyHash, dripsHistory).
Proof.
  intros Ha. unfold getArgsForSqueezingAllDrips.
  destruct (mapM_total (itemOf userId tokenAddress) (selectedOf fetched)) as [items ->].
  - intros e _. unfold historyItem.
    destruct (shouldSqueeze_total userId tokenAddress e
                (DripsSetEvent.dripsReceiverSeenEvents e) a Ha) as [b ->].
    cbn [bind]. eauto.
  - cbn [bind]. eauto.
Qed.

Lemma history_sorted (dripsHistory : list DripsHistoryStruct.t) (l : list event) :
  Forall2 (fun item e => DripsHistoryStruct.updateTime item = ts e) dripsHistory l ->
  StronglySorted (fun a b => ts a <= ts b) l ->
  StronglySorted
    (fun x y => DripsHistoryStruct.updateTime x <= DripsHistoryStruct.updateTime y)
    dripsHistory.
Proof.
  induction 1 as [| item e dripsHistory l Hitem Hrest IH]; [constructor |].
  intros [He Hl]%StronglySorted_cons. constructor; [auto |].
  clear IH Hl. induction Hrest as [| item' e' ? ? Hitem' _ IH']; [constructor |].
  apply Forall_cons in He as [He He']. constructor; [| auto]. cbn in *. lia.
Qed.

(** C5. Which events the builder keeps, and in which order it lists them.
    When every fetched block timestamp is a time value (at most 8.64e15 in
    magnitude, so that its date is valid), the events kept are, up to their
    order, the fetched events at or after the start of the current cycle,
    and with them the most recent fetched event before that start when
    there is one.  For every list of fetched events, the builder returns
    whenever the token address has an asset ID, and the history it returns
    lists the events kept, one item each, by ascending block timestamp. *)
Theorem getArgsForSqueezingAllDrips_selection
    (userId senderId tokenAddress : string) (fetched : list event) :
  (Forall isTimeValue fetched ->
   exists older,
     selectedOf fetched ≡ₚ filter inCycle fetched ++ older
     /\ mostRecentBefore currentCycleStartDate fetched older)
  /\ (forall a, getIdFromAddress tokenAddress = Return a ->
      exists historyHash dripsHistory,
        getArgs userId senderId tokenAddress fetched
        = Return (userId, tokenAddress, senderId, historyHash, dripsHistory))
  /\ (forall u t s historyHash dripsHistory,
      getArgs userId senderId tokenAddress fetched
      = Return (u, t, s, historyHash, dripsHistory) ->
      Forall2 (fun item e =>
                 DripsHistoryStruct.updateTime item = ts e
                 /\ DripsHistoryStruct.maxEnd item = DripsSetEvent.maxEnd e)
        dripsHistory (reverse (selectedOf fetched))
      /\ StronglySorted
           (fun x y => DripsHistoryStruct.updateTime x <= DripsHistoryStruct.updateTime y)
           dripsHistory).
Proof.
  split_and!.
  - apply selected_spec.
  - intros a Ha. by eapply getArgs_total.
  - intros u t s historyHash dripsHistory Hargs.
    apply getArgs_Return in Hargs as (_ & _ & _ & _ & Hitems).
    assert (Hfields :
      Forall2 (fun item e =>
                 DripsHistoryStruct.updateTime item = ts e
                 /\ DripsHistoryStruct.maxEnd item = DripsSetEvent.maxEnd e)
        dripsHistory (reverse (selectedOf fetched))).
    { eapply Forall2_impl; [exact Hitems |]. cbn. intros item e Hitem.
      apply historyItem_Return in Hitem as (b & _ & _ & _ & Htime & Hend). auto. }
    split; [exact Hfields |].
    eapply history_sorted.
    + eapply Forall2_impl; [exact Hfields |]. cbn. by intros item e [? _].
    + apply (reverse_sorted ts), selected_sorted.
Qed.

(** C6. The items of the history are well formed: a non-zero [dripsHash]
    comes with no receivers, and receivers come with the zero hash.  The
    item of an event kept has receivers exactly when one of the event's
    receivers is [userId] and the event's asset is the asset of
    [tokenAddress]. *)
Theorem getArgsForSqueezingAllDrips_wellformed
    (userId senderId tokenAddress : string) (fetched : list event) :
  (forall a, getIdFromAddress tokenAddress = Return a ->
     exists historyHash dripsHistory,
       getArgs userId senderId tokenAddress fetched
       = Return (userId, tokenAddress, senderId, historyHash, dripsHistory))
  /\ (forall u t s historyHash dripsHistory,
      getArgs userId senderId tokenAddress fetched
      = Return (u, t, s, historyHash, dripsHistory) ->
      Forall (fun item =>
                (DripsHistoryStruct.dripsHash item <> HashZero ->
                 DripsHistoryStruct.receivers item = [])
                /\ (DripsHistoryStruct.receivers item <> [] ->
                    DripsHistoryStruct.dripsHash item = HashZero))
        dripsHistory
      /\ Forall2 (fun item e =>
                    DripsHistoryStruct.receivers item <> [] <->
                    (exists r, r ∈ DripsSetEvent.dripsReceiverSeenEvents e
                               /\ DripsReceiverSeen.receiverUserId r = userId)
                    /\ getIdFromAddress tokenAddress
                       = Return (DripsSetEvent.assetId e))
           dripsHistory (reverse (selectedOf fetched))).
Proof.
  split; [intros a Ha; by eapply getArgs_total |].
  intros u t s historyHash dripsHistory Hargs.
  apply getArgs_Return in Hargs as (_ & _ & _ & _ & Hitems). split.
  - apply Forall2_Forall_l with (1 := Hitems), Forall_forall.
    intros e _ item Hitem.
    apply historyItem_Return in Hitem as (b & _ & Hhash & Hrecv & _).
    rewrite Hhash. destruct b.
    + split; [done | auto].
    + split; [| intros Hne; apply Hrecv in Hne; done].
      intros _. destruct (DripsHistoryStruct.receivers item) eqn:Hr; [done |].
      assert (false = true); [| done]. apply Hrecv. done.
  - eapply Forall2_impl; [exact Hitems |]. cbn. intros item e Hitem.
    apply historyItem_Return in Hitem as (b & Hb & _ & Hrecv & _).
    rewrite <- Hrecv. by apply shouldSqueeze_Return.
Qed.

(** C7. The history hash the builder returns: when more than one event is
    kept, the [dripsHistoryHash] of the last event kept, which is the
    oldest of them; when none or one is kept, the zero hash.  The
    history has one item for each event kept. *)
Theorem getArgsForSqueezingAllDrips_historyHash
    (userId senderId tokenAddress : string) (fetched : list event) :
  (forall a, getIdFromAddress tokenAddress = Return a ->
     exists historyHash dripsHistory,
       getArgs userId senderId tokenAddress fetched
       = Return (userId, tokenAddress, senderId, historyHash, dripsHistory))
  /\ (forall u t s historyHash dripsHistory,
      getArgs userId senderId tokenAddress fetched
      = Return (u, t, s, historyHash, dripsHistory) ->
      length dripsHistory = length (selectedOf fetched)
      /\ ((1 < length (selectedOf fetched))%nat ->
          exists oldest,
            last (selectedOf fetched) = Some oldest
            /\ historyHash = DripsSetEvent.dripsHistoryHash oldest
            /\ forall e, e ∈ selectedOf fetched -> ts oldest <= ts e)
      /\ ((length (selectedOf fetched) <= 1)%nat -> historyHash = HashZero)).
Proof.
  split; [intros a Ha; by eapply getArgs_total |].
  intros u t s historyHash dripsHistory Hargs.
  apply getArgs_Return in Hargs as (_ & _ & _ & -> & Hitems).
  split_and!.
  - apply Forall2_length in Hitems. by rewrite length_reverse in Hitems.
  - intros Hlen. unfold historyHashOf. rewrite bool_decide_eq_true_2 by done.
    replace (length (selectedOf fetched) - 1)%nat
      with (pred (length (selectedOf fetched))) by lia.
    rewrite <- last_lookup.
    destruct (last (selectedOf fetched)) as [oldest |] eqn:Hlast.
    + exists oldest. split_and!; [done | done |].
      pose proof (selected_sorted fetched) as Hsorted.
      apply last_Some in Hlast as [l' Hl']. rewrite Hl' in *.
      intros e [He | ->%list_elem_of_singleton]%elem_of_app; [| done].
      eapply (StronglySorted_app_1_elem_of _ _ _ e oldest) in Hsorted;
        [done | done | by apply list_elem_of_singleton].
    + apply last_None in Hlast. rewrite Hlast in Hlen. cbn in Hlen. lia.
  - intros Hlen. unfold historyHashOf. rewrite bool_decide_eq_false_2; [done | lia].
Qed.

End Squeeze.

Example getArgsForSqueezingAllDrips_sample :
  DripsSubgraphClient.getArgsForSqueezingAllDrips
    Sample.currentCycleStartDate Sample.getIdFromAddress
    "alice" "carol" "0xtoken" Sample.fetched
  = Return ("alice", "0xtoken", "carol", "0xh80", Sample.dripsHistory).
Proof. reflexivity. Qed.

Lemma getArgsForSqueezingAllDrips_selection_witness :
  Forall DripsSubgraphClient.isTimeValue Sample.fetched
  /\ (exists older,
        DripsSubgraphClient.squeezableDripsSetEvents
          Sample.currentCycleStartDate Sample.fetched
        ≡ₚ filter (fun e => Sample.currentCycleStartDate <= DripsSetEvent.blockTimestamp e)
             Sample.fetched ++ older
        /\ DripsSubgraphClient.mostRecentBefore
             Sample.currentCycleStartDate Sample.fetched older)
  /\ Sample.getIdFromAddress "0xtoken" = Return 7
  /\ (exists historyHash dripsHistory,
        DripsSubgraphClient.getArgsForSqueezingAllDrips
          Sample.currentCycleStartDate Sample.getIdFromAddress
          "alice" "carol" "0xtoken" Sample.fetched
        = Return ("alice", "0xtoken", "carol", historyHash, dripsHistory))
  /\ DripsSubgraphClient.getArgsForSqueezingAllDrips
       Sample.currentCycleStartDate Sample.getIdFromAddress
       "alice" "carol" "0xtoken" Sample.fetched
     = Return ("alice", "0xtoken", "carol", "0xh80", Sample.dripsHistory)
  /\ Forall2 (fun item e =>
               DripsHistoryStruct.updateTime item = DripsSetEvent.blockTimestamp e
               /\ DripsHistoryStruct.maxEnd item = DripsSetEvent.maxEnd e)
       Sample.dripsHistory
       (reverse (DripsSubgraphClient.squeezableDripsSetEvents
                   Sample.currentCycleStartDate Sample.fetched))
  /\ StronglySorted
       (fun x y => DripsHistoryStruct.updateTime x <= DripsHistoryStruct.updateTime y)
       Sample.dripsHistory.
Proof.
  assert (Htimes : Forall DripsSubgraphClient.isTimeValue Sample.fetched)
    by (repeat constructor; vm_compute; discriminate).
  assert (Hargs :
    DripsSubgraphClient.getArgsForSqueezingAllDrips
      Sample.currentCycleStartDate Sample.getIdFromAddress
      "alice" "carol" "0xtoken" Sample.fetched
    = Return ("alice", "0xtoken", "carol", "0xh80", Sample.dripsHistory))
    by reflexivity.
  destruct (getArgsForSqueezingAllDrips_selection
              Sample.currentCycleStartDate Sample.getIdFromAddress
              "alice" "carol" "0xtoken" Sample.fetched)
    as (Hselected & Hreturns & Hhistory).
  split; [exact Htimes |].
  split; [exact (Hselected Htimes) |].
  split; [reflexivity |].
  split; [exact (Hreturns 7 eq_refl) |].
  split; [exact Hargs |].
  exact (Hhistory _ _ _ _ _ Hargs).
Defined.

(** Beyond 2^53 the comparator sees the Numbers, which tie where the
    timestamps differ: the two events below stay as they were fetched. *)
Example sort_beyond_safe_integers :
  sort DripsSubgraphClient.byBlockTimestampDesc
    [ Sample.event 7 (2 ^ 53) ["bob"] "0xh0" "0xr0";
      Sample.event 7 (2 ^ 53 + 1) ["alice"] "0xh1" "0xr1" ]
  = [ Sample.event 7 (2 ^ 53) ["bob"] "0xh0" "0xr0";
      Sample.event 7 (2 ^ 53 + 1) ["alice"] "0xh1" "0xr1" ]
  /\ DripsSubgraphClient.squeezableDripsSetEvents Sample.currentCycleStartDate
       [ Sample.event 7 (2 ^ 53) ["bob"] "0xh0" "0xr0";
         Sample.event 7 (2 ^ 53 + 1) ["alice"] "0xh1" "0xr1" ]
     = [ Sample.event 7 (2 ^ 53) ["bob"] "0xh0" "0xr0" ].
Proof. split; vm_compute; reflexivity. Qed.

(** C5, as the specification words it, fails beyond the time values.  Two
    events fetched with the block timestamps 9000000000000000 and
    8800000000000000 are both after a cycle start of 100, yet neither makes
    a valid date: the loop keeps the first of them and stops. *)
Lemma getArgsForSqueezingAllDrips_selection_counterexample :
  DripsSubgraphClient.squeezableDripsSetEvents
    Sample.currentCycleStartDate Sample.beyondTimeValues
  = [Sample.event 7 9000000000000000 ["alice"] "0xh90" "0xr90"]
  /\ Forall (fun e => Sample.currentCycleStartDate <= DripsSetEvent.blockTimestamp e)
       Sample.beyondTimeValues
  /\ ~ exists older,
         DripsSubgraphClient.squeezableDripsSetEvents
           Sample.currentCycleStartDate Sample.beyondTimeValues
         ≡ₚ filter (fun e => Sample.currentCycleStartDate <= DripsSetEvent.blockTimestamp e)
              Sample.beyondTimeValues ++ older
         /\ DripsSubgraphClient.mostRecentBefore
              Sample.currentCycleStartDate Sample.beyondTimeValues older.
Proof.
  split; [reflexivity |].
  split; [repeat constructor; vm_compute; discriminate |].
  intros (older & Hperm & _). apply Permutation_length in Hperm.
  rewrite List.length_app in Hperm. vm_compute in Hperm. lia.
Qed.

Lemma getArgsForSqueezingAllDrips_wellformed_witness :
  DripsSubgraphClient.getArgsForSqueezingAllDrips
    Sample.currentCycleStartDate Sample.getIdFromAddress
    "alice" "carol" "0xtoken" Sample.fetched
  = Return ("alice", "0xtoken", "carol", "0xh80", Sample.dripsHistory)
  /\ Forall (fun item =>
              (DripsHistoryStruct.dripsHash item <> HashZero ->
               DripsHistoryStruct.receivers item = [])
              /\ (DripsHistoryStruct.receivers item <> [] ->
                  DripsHistoryStruct.dripsHash item = HashZero))
       Sample.dripsHistory.
Proof.
  assert (Hargs :
    DripsSubgraphClient.getArgsForSqueezingAllDrips
      Sample.currentCycleStartDate Sample.getIdFromAddress
      "alice" "carol" "0xtoken" Sample.fetched
    = Return ("alice", "0xtoken", "carol", "0xh80", Sample.dripsHistory))
    by reflexivity.
  split; [exact Hargs |].
  exact (proj1 (proj2 (getArgsForSqueezingAllDrips_wellformed
                         Sample.currentCycleStartDate Sample.getIdFromAddress
                         "alice" "carol" "0xtoken" Sample.fetched)
                  _ _ _ _ _ Hargs)).
Defined.

Lemma getArgsForSqueezingAllDrips_historyHash_witness :
  DripsSubgraphClient.getArgsForSqueezingAllDrips
    Sample.currentCycleStartDate Sample.getIdFromAddress
    "alice" "carol" "0xtoken" Sample.fetched
  = Return ("alice", "0xtoken", "carol", "0xh80", Sample.dripsHistory)
  /\ length Sample.dripsHistory
     = length (DripsSubgraphClient.squeezableDripsSetEvents
                 Sample.currentCycleStartDate Sample.fetched)
  /\ exists oldest,
       last (DripsSubgraphClient.squeezableDripsSetEvents
               Sample.currentCycleStartDate Sample.fetched) = Some oldest
       /\ "0xh80" = DripsSetEvent.dripsHistoryHash oldest
       /\ forall e,
            e ∈ DripsSubgraphClient.squeezableDripsSetEvents
                  Sample.currentCycleStartDate Sample.fetched ->
            DripsSetEvent.blockTimestamp oldest <= DripsSetEvent.blockTimestamp e.
Proof.
  assert (Hargs :
    DripsSubgraphClient.getArgsForSqueezingAllDrips
      Sample.currentCycleStartDate Sample.getIdFromAddress
      "alice" "carol" "0xtoken" Sample.fetched
    = Return ("alice", "0xtoken", "carol", "0xh80", Sample.dripsHistory))
    by reflexivity.
  split; [exact Hargs |].
  destruct (proj2 (getArgsForSqueezingAllDrips_historyHash
                     Sample.currentCycleStartDate Sample.getIdFromAddress
                     "alice" "carol" "0xtoken" Sample.fetched)
              _ _ _ _ _ Hargs) as (Hlength & Hmany & _).
  split; [exact Hlength |]. apply Hmany. vm_compute. lia.
Defined.

(** ** The subgraph query *)

Section QueryFacts.
Import DripsSubgraphClient.
Context {T E : Type} (stringify : E -> string).

Local Abbreviation queryOf := (query (T := T) stringify).

Lemma hasErrors_false (body : option (Response.content T E)) :
  hasErrors body = false <-> errorsAbsentOrEmpty body.
Proof.
  destruct body as [[data [[| e errors] |]] |]; cbn; split; intros; try done; auto.
  destruct H as [H | H]; done.
Qed.

(** C8. [query] resolves with the parsed body when the status is between
    200 and 299 and the body has no [errors] or an empty [errors] array; it
    throws [DripsErrors.subgraphQueryError] when the body has a non-empty
    [errors] array and when the status is outside that range.  An error
    other than that one is a rejection of [fetch] or of [json()] let
    through, not an error of [query]. *)
Theorem query_spec (resp : Response.t T E) :
  (200 <= Response.status resp <= 299 ->
   forall body, Response.json resp = Return body ->
     errorsAbsentOrEmpty body -> queryOf (Return resp) = Return body)
  /\ (200 <= Response.status resp <= 299 ->
      forall body, Response.json resp = Return body ->
        ~ errorsAbsentOrEmpty body ->
        exists message,
          queryOf (Return resp) = Throw (DripsErrors.subgraphQueryError message))
  /\ (~ 200 <= Response.status resp <= 299 ->
      exists message,
        queryOf (Return resp) = Throw (DripsErrors.subgraphQueryError message))
  /\ (forall fetched e,
        queryOf fetched = Throw e ->
        (exists message, e = DripsErrors.subgraphQueryError message)
        \/ fetched = Throw e
        \/ exists resp', fetched = Return resp' /\ Response.json resp' = Throw e).
Proof.
  unfold query, inRange. split_and!.
  - intros Hstatus body Hjson Herrors. cbn [bind].
    rewrite (proj2 (Z.leb_le _ _)), (proj2 (Z.leb_le _ _)) by lia. cbn [andb].
    rewrite Hjson. cbn [bind].
    by rewrite (proj2 (hasErrors_false body) Herrors).
  - intros Hstatus body Hjson Herrors. cbn [bind].
    rewrite (proj2 (Z.leb_le _ _)), (proj2 (Z.leb_le _ _)) by lia. cbn [andb].
    rewrite Hjson. cbn [bind].
    destruct (hasErrors body) eqn:Hhas; [eauto |].
    by apply hasErrors_false in Hhas.
  - intros Hstatus. cbn [bind].
    destruct (Z.leb_spec 200 (Response.status resp));
      destruct (Z.leb_spec (Response.status resp) 299); cbn [andb]; eauto.
    lia.
  - intros [resp' | e'] e; cbn [bind]; [| intros [= <-]; auto].
    destruct (_ && _); [| intros [= <-]; eauto].
    destruct (Response.json resp') as [body | e'] eqn:Hjson; cbn [bind].
    + destruct (hasErrors body); [intros [= <-]; eauto | done].
    + intros [= <-]. eauto.
Qed.

End QueryFacts.

Lemma query_spec_witness :
  let body : option (Response.content Z string) :=
    Some {| Response.data := Some 42; Response.errors := Some [] |} in
  let resp : Response.t Z string :=
    {| Response.status := 200; Response.statusText := "OK";
       Response.json := Return body |} in
  DripsSubgraphClient.query (fun e => e) (Return resp) = Return body.
Proof.
  intros body resp.
  apply (proj1 (query_spec (fun e => e) resp)); cbn; [lia | reflexivity | auto].
Defined.

Example query_errors_sample :
  DripsSubgraphClient.query (T := Z) (fun e : string => e)
    (Return {| Response.status := 200; Response.statusText := "OK";
               Response.json :=
                 Return (Some {| Response.data := None;
                                 Response.errors := Some ["boom"; "bang"] |}) |})
  = Throw (DripsErrors.subgraphQueryError "Subgraph query failed: boom").
Proof. reflexivity. Qed.

Example query_status_sample :
  DripsSubgraphClient.query (T := Z) (fun e : string => e)
    (Return {| Response.status := 500; Response.statusText := "Internal Server Error";
               Response.json := Throw (PlatformError "no body") |})
  = Throw (DripsErrors.subgraphQueryError "Subgraph query failed: Internal Server Error").
Proof. reflexivity. Qed.

(** ** The squeezable senders *)

Section SendersFacts.
Import DripsSubgraphClient.
Context {SenderId AssetId : Type} `{ToString SenderId} `{ToString AssetId}.

Local Abbreviation seenEvent := (DripsReceiverSeenEvent.t SenderId AssetId).
Local Abbreviation keyOf e := (toString (DripsReceiverSeenEvent.senderUserId e)).
Local Abbreviation assetsOf :=
  (fun e : seenEvent =>
     [toString (DripsReceiverSeenEvent.assetId (DripsReceiverSeenEvent.dripsSetEvent e))]).
(** The first event of [l] whose sender has the key [k]. *)
Local Abbreviation firstOf k l :=
  (head (filter (fun e : seenEvent =>
                   toString (DripsReceiverSeenEvent.senderUserId e) = k) l)).

Lemma firstOf_snoc (k : string) (l : list seenEvent) (e : seenEvent) :
  firstOf k (l ++ [e])
  = match firstOf k l with
    | Some first => Some first
    | None => if decide (keyOf e = k) then Some e else None
    end.
Proof.
  rewrite filter_app, head_app. destruct (firstOf k l); [done |].
  rewrite filter_cons, filter_nil. by case_decide.
Qed.

(** One turn of the loop keeps both records in step with the events walked
    so far. *)
Lemma processEvent_step (seen : list seenEvent) (e : seenEvent)
    (squeezableSenders : gmap string (list string))
    (processedSenders : gmap string bool) :
  (forall k, squeezableSenders !! k = assetsOf <$> firstOf k seen) ->
  (forall k, processedSenders !! k = (fun _ => true) <$> firstOf k seen) ->
  let '(squeezableSenders', processedSenders') :=
    processEvent (squeezableSenders, processedSenders) e in
  (forall k, squeezableSenders' !! k = assetsOf <$> firstOf k (seen ++ [e]))
  /\ (forall k, processedSenders' !! k = (fun _ => true) <$> firstOf k (seen ++ [e])).
Proof.
  intros Hsq Hpr. unfold processEvent.
  destruct (processedSenders !! keyOf e) as [b |] eqn:Hb; cbn [default negb].
  - pose proof (Hpr (keyOf e)) as Hfirst. rewrite Hb in Hfirst.
    destruct (firstOf (keyOf e) seen) as [first |] eqn:Hseen; [| done].
    injection Hfirst as ->. cbn [negb].
    split; intros k; rewrite firstOf_snoc.
    + rewrite Hsq. destruct (firstOf k seen) eqn:Hk; [done |].
      case_decide as Hkey; [| done]. subst k. congruence.
    + rewrite Hpr. destruct (firstOf k seen) eqn:Hk; [done |].
      case_decide as Hkey; [| done]. subst k. congruence.
  - pose proof (Hpr (keyOf e)) as Hfirst. rewrite Hb in Hfirst.
    destruct (firstOf (keyOf e) seen) as [first |] eqn:Hseen; [done |].
    pose proof (Hsq (keyOf e)) as Hnone. rewrite Hseen in Hnone. cbn in Hnone.
    rewrite bool_decide_eq_false_2 by (rewrite Hnone; by intros [? ?]).
    cbn [negb].
    split; intros k; rewrite firstOf_snoc.
    + destruct (decide (keyOf e = k)) as [<- | Hne].
      * rewrite Hseen, lookup_alter_eq, lookup_insert_eq. done.
      * rewrite lookup_alter_ne, lookup_insert_ne, Hsq by done.
        by destruct (firstOf k seen).
    + destruct (decide (keyOf e = k)) as [<- | Hne].
      * by rewrite Hseen, lookup_insert_eq.
      * rewrite lookup_insert_ne, Hpr by done. by destruct (firstOf k seen).
Qed.

Lemma processEvent_foldl (events seen : list seenEvent)
    (squeezableSenders : gmap string (list string))
    (processedSenders : gmap string bool) :
  (forall k, squeezableSenders !! k = assetsOf <$> firstOf k seen) ->
  (forall k, processedSenders !! k = (fun _ => true) <$> firstOf k seen) ->
  forall k,
    fst (foldl processEvent (squeezableSenders, processedSenders) events) !! k
    = assetsOf <$> firstOf k (seen ++ events).
Proof.
  revert seen squeezableSenders processedSenders.
  induction events as [| e events IH]; intros seen sq pr Hsq Hpr k.
  - rewrite app_nil_r. apply Hsq.
  - cbn [foldl]. pose proof (processEvent_step seen e sq pr Hsq Hpr) as Hstep.
    destruct (processEvent (sq, pr) e) as [sq' pr']. destruct Hstep as [Hsq' Hpr'].
    rewrite (IH (seen ++ [e]) sq' pr' Hsq' Hpr' k).
    by rewrite <- app_assoc.
Qed.

(** C10. The record [getSqueezableSenders] returns holds, under the key of
    a sender, the one-element list of the asset of the first event of that
    sender in the list, whatever other assets later events of the sender
    have; it has no key for a sender without events; and no key occurs
    twice. *)
Theorem getSqueezableSenders_spec
    (dripsReceiverSeenEvents : option (list seenEvent)) :
  (forall k,
     getSqueezableSenders dripsReceiverSeenEvents !! k
     = assetsOf <$> firstOf k (default [] dripsReceiverSeenEvents))
  /\ NoDup (map_to_list (getSqueezableSenders dripsReceiverSeenEvents)).*1.
Proof.
  split; [| apply NoDup_fst_map_to_list].
  intros k. destruct dripsReceiverSeenEvents as [[| e events] |]; cbn [default].
  - apply lookup_empty.
  - unfold getSqueezableSenders.
    by rewrite (processEvent_foldl (e :: events) [] ∅ ∅).
  - apply lookup_empty.
Qed.

End SendersFacts.

Example getSqueezableSenders_sample :
  DripsSubgraphClient.getSqueezableSenders
    (Some [Sample.seen "1" "10"; Sample.seen "2" "20";
           Sample.seen "1" "30"; Sample.seen "2" "20"])
  = {[ "1" := ["10"]; "2" := ["20"] ]}.
Proof. by vm_compute. Qed.

(** * Further properties *)

(** ** Decoding a packed configuration *)

Section Decoding.
Import DripsReceiverConfig.

Lemma unpack (u : Z) :
  0 <= u ->
  u = Z.shiftr u 64 * 2 ^ 64 + Z.land (Z.shiftr u 32) (2 ^ 32 - 1) * 2 ^ 32
      + Z.land u (2 ^ 32 - 1)
  /\ 0 <= Z.land (Z.shiftr u 32) (2 ^ 32 - 1) < 2 ^ 32
  /\ 0 <= Z.land u (2 ^ 32 - 1) < 2 ^ 32
  /\ 0 <= Z.shiftr u 64.
Proof.
  intros Hu. change (2 ^ 32 - 1) with (Z.ones 32).
  rewrite !Z.land_ones, !Z.shiftr_div_pow2 by lia.
  replace (u / 2 ^ 64) with (u / 2 ^ 32 / 2 ^ 32)
    by (rewrite Z.div_div by lia; reflexivity).
  pose proof (Z.div_mod u (2 ^ 32) ltac:(lia)) as H1.
  pose proof (Z.div_mod (u / 2 ^ 32) (2 ^ 32) ltac:(lia)) as H2.
  pose proof (Z.mod_pos_bound u (2 ^ 32) ltac:(lia)) as H3.
  pose proof (Z.mod_pos_bound (u / 2 ^ 32) (2 ^ 32) ltac:(lia)) as H4.
  assert (0 <= u / 2 ^ 32) by (apply Z.div_pos; lia).
  assert (0 <= u / 2 ^ 32 / 2 ^ 32) by (apply Z.div_pos; lia).
  lia.
Qed.

Lemma fromUint256_unpacked (u : Z) :
  2 ^ 64 <= u ->
  fromUint256 u
  = Return {| start := Z.land (Z.shiftr u 32) (2 ^ 32 - 1);
              duration := Z.land u (2 ^ 32 - 1);
              amountPerSec := Z.shiftr u 64;
              asUint256 := u |}.
Proof.
  intros Hu. destruct (unpack u ltac:(lia)) as (Heq & Hs & Hd & Ha).
  assert (Hpos : 0 < Z.shiftr u 64).
  { rewrite Z.shiftr_div_pow2 by lia. apply Z.div_str_pos. lia. }
  pose proof (fromUint256_value _ _ _ Hpos Hs Hd) as Hfrom.
  by rewrite <- Heq in Hfrom.
Qed.

(** X1. Decoding then encoding: for every integer from 2^64 on,
    [fromUint256] returns a configuration whose [asUint256] is that integer,
    whose [toUint256] is that integer again, and whose [start] and
    [duration] are below 2^32. *)
Theorem toUint256_fromUint256 (u : Z) :
  2 ^ 64 <= u ->
  exists c,
    fromUint256 u = Return c
    /\ asUint256 c = u
    /\ toUint256 c = Return u
    /\ amountPerSec c = Z.shiftr u 64
    /\ 0 <= start c < 2 ^ 32 /\ 0 <= duration c < 2 ^ 32.
Proof.
  intros Hu. destruct (unpack u ltac:(lia)) as (Heq & Hs & Hd & Ha).
  eexists. split; [by apply fromUint256_unpacked |].
  cbn [asUint256 amountPerSec start duration]. split_and!; try done; try lia.
  rewrite toUint256_value by (cbn; lia). cbn [asUint256 amountPerSec start duration].
  by rewrite <- Heq.
Qed.

Lemma toUint256_fromUint256_witness :
  exists c,
    fromUint256 (2 ^ 64 + 5) = Return c
    /\ asUint256 c = 2 ^ 64 + 5
    /\ toUint256 c = Return (2 ^ 64 + 5)
    /\ amountPerSec c = Z.shiftr (2 ^ 64 + 5) 64
    /\ 0 <= start c < 2 ^ 32 /\ 0 <= duration c < 2 ^ 32.
Proof. apply (toUint256_fromUint256 (2 ^ 64 + 5)). lia. Defined.

(** X2. When [fromUint256] fails: it throws [DripsErrors.invalidArgument]
    exactly for the integers from 0 up to 2^64 - 1, whose [amountPerSec] part is
    zero; it lets the numeric fault of [BigNumber] through exactly for the
    negative integers; and it returns exactly from 2^64 on. *)
Theorem fromUint256_errors (u : Z) :
  ((exists message, fromUint256 u = Throw (DripsErrors.invalidArgument message))
   <-> 0 <= u < 2 ^ 64)
  /\ ((exists fault operation, fromUint256 u = Throw (NumericFault fault operation))
      <-> u < 0)
  /\ ((exists c, fromUint256 u = Return c) <-> 2 ^ 64 <= u).
Proof.
  destruct (Z.lt_ge_cases u 0) as [Hneg | Hnonneg].
  - assert (Hthrow : fromUint256 u = Throw (NumericFault "negative-width" "shr")).
    { unfold fromUint256, BigNumber.shr, BigNumber.isNegative.
      by rewrite (proj2 (Z.ltb_lt u 0) Hneg). }
    rewrite Hthrow. split_and!; split; try lia; eauto.
    + by intros [message [=]].
    + by intros [c [=]].
  - destruct (Z.lt_ge_cases u (2 ^ 64)) as [Hsmall | Hlarge].
    + assert (Hthrow : exists message,
                fromUint256 u = Throw (DripsErrors.invalidArgument message)).
      { destruct (unpack u Hnonneg) as (_ & Hs & Hd & _).
        assert (Ha : Z.shiftr u 64 = 0).
        { rewrite Z.shiftr_div_pow2 by lia. apply Z.div_small. lia. }
        unfold fromUint256. rewrite shr_nonneg, Ha by lia. cbn [bind].
        rewrite and_nonneg by lia. cbn [bind].
        rewrite shr_nonneg by lia. cbn [bind].
        rewrite and_nonneg by (try apply Z.shiftr_nonneg; lia). cbn [bind].
        unfold new. cbn. eauto. }
      destruct Hthrow as [message Hthrow]. rewrite Hthrow.
      split_and!; split; try lia; eauto.
      * by intros (fault & operation & [=]).
      * by intros [c [=]].
    + rewrite (fromUint256_unpacked u Hlarge).
      split_and!; split; try lia; eauto.
      * by intros [message [=]].
      * by intros (fault & operation & [=]).
Qed.

Lemma fromUint256_errors_witness :
  (exists message, fromUint256 5 = Throw (DripsErrors.invalidArgument message))
  /\ (exists fault operation, fromUint256 (-1) = Throw (NumericFault fault operation))
  /\ (exists c, fromUint256 (2 ^ 64) = Return c).
Proof.
  split_and!.
  - apply (proj1 (fromUint256_errors 5)). lia.
  - apply (proj1 (proj2 (fromUint256_errors (-1)))). lia.
  - apply (proj2 (proj2 (fromUint256_errors (2 ^ 64)))). lia.
Defined.

(** X3. The encoding tells configurations apart: two configurations with
    [start] and [duration] below 2^32 and the same [toUint256] are the same
    configuration. *)
Theorem toUint256_inj (c1 c2 : t) :
  instance c1 -> instance c2 ->
  start c1 < 2 ^ 32 -> duration c1 < 2 ^ 32 ->
  start c2 < 2 ^ 32 -> duration c2 < 2 ^ 32 ->
  toUint256 c1 = toUint256 c2 -> c1 = c2.
Proof.
  intros Hc1 Hc2 Hs1 Hd1 Hs2 Hd2 Heq.
  destruct (instance_inv c1 Hc1) as (Ha1 & Hs1' & Hd1' & Hu1).
  destruct (instance_inv c2 Hc2) as (Ha2 & Hs2' & Hd2' & Hu2).
  assert (Hu : asUint256 c1 = asUint256 c2) by congruence.
  rewrite toUint256_value in Hu1, Hu2 by lia.
  injection Hu1 as Hu1. injection Hu2 as Hu2.
  destruct c1 as [s1 d1 u1 a1], c2 as [s2 d2 u2 a2]. cbn in *.
  assert (a1 = a2 /\ s1 = s2 /\ d1 = d2) as (-> & -> & ->) by lia.
  by subst.
Qed.

Lemma toUint256_inj_witness :
  let c := {| start := 7; duration := 5; amountPerSec := 3;
              asUint256 := 3 * 2 ^ 64 + 7 * 2 ^ 32 + 5 |} in
  c = c.
Proof.
  intros c.
  assert (Hc : instance c) by (exists 3, (Some 5), (Some 7); reflexivity).
  apply (toUint256_inj c c Hc Hc); cbn; (lia || reflexivity).
Defined.

Lemma le_lor_l (x y : Z) : 0 <= x -> 0 <= y -> x <= Z.lor x y.
Proof.
  intros Hx Hy.
  apply (Z.ldiff_le x (Z.lor x y)); [by apply Z.lor_nonneg |].
  apply Z.bits_inj'. intros n Hn.
  rewrite Z.ldiff_spec, Z.lor_spec, Z.bits_0.
  by destruct (Z.testbit x n), (Z.testbit y n).
Qed.

(** X4. Whatever the size of [start] and [duration], the [asUint256] of a
    configuration is at least [amountPerSec] * 2^64, so at least 2^64, and
    [fromUint256] decodes it to a configuration with the same [asUint256]. *)
Theorem asUint256_decodes (c : t) :
  instance c ->
  amountPerSec c * 2 ^ 64 <= asUint256 c
  /\ exists c', fromUint256 (asUint256 c) = Return c' /\ asUint256 c' = asUint256 c.
Proof.
  intros Hc. destruct (instance_inv c Hc) as (Ha & Hs & Hd & Hu).
  assert (Hbound : amountPerSec c * 2 ^ 64 <= asUint256 c).
  { revert Hu. unfold toUint256.
    rewrite shl_nonneg by lia. cbn [bind].
    rewrite or_nonneg by (try apply Z.shiftl_nonneg; lia). cbn [bind].
    assert (H1 : amountPerSec c * 2 ^ 32 <= Z.lor (Z.shiftl (amountPerSec c) 32) (start c)).
    { rewrite <- Z.shiftl_mul_pow2 by lia.
      apply le_lor_l; [apply Z.shiftl_nonneg |]; lia. }
    rewrite shl_nonneg by lia. cbn [bind].
    rewrite or_nonneg by (try apply Z.shiftl_nonneg; lia). cbn [bind].
    intros [= <-].
    etransitivity; [| apply le_lor_l; [apply Z.shiftl_nonneg |]; lia].
    rewrite Z.shiftl_mul_pow2 by lia. lia. }
  split; [exact Hbound |].
  eexists. split; [apply fromUint256_unpacked; lia | reflexivity].
Qed.

Lemma asUint256_decodes_witness :
  let c := {| start := 2 ^ 32; duration := 0; amountPerSec := 1; asUint256 := 2 ^ 64 |} in
  instance c
  /\ amountPerSec c * 2 ^ 64 <= asUint256 c
  /\ exists c', fromUint256 (asUint256 c) = Return c' /\ asUint256 c' = asUint256 c.
Proof.
  intros c.
  assert (Hc : instance c) by (exists 1, None, (Some (2 ^ 32)); reflexivity).
  split; [exact Hc |]. apply (asUint256_decodes c Hc).
Defined.

End Decoding.

(** ** Numerals as identifiers *)

Section Identifiers.
Import Numeral BigNumberString Utils JsString.

Lemma hexValue_decimal (s : string) (n : N) :
  parse 10 s 0 = Some n -> hexValue s = None.
Proof.
  intros Hparse. unfold hexValue, strip0x.
  destruct s as [| c [| c1 s]]; try reflexivity.
  destruct (Ascii.eqb_spec c "0") as [-> |]; [| reflexivity].
  destruct (Ascii.eqb_spec c1 "x") as [-> |]; [| reflexivity].
  discriminate Hparse.
Qed.

(** [BigNumber.from] reads back what [toString] and [toHexString] write,
    whatever the sign. *)
Lemma from_toString (z : Z) : from (toString z) = Return z.
Proof.
  destruct (Z.lt_ge_cases z 0) as [Hneg | Hnonneg].
  - unfold toString, sign. rewrite (proj2 (Z.ltb_lt z 0) Hneg).
    change ("-" +:+ print 10 (Z.abs_N z)) with (String "-" (print 10 (Z.abs_N z))).
    unfold from. cbn [stripSign Ascii.eqb Bool.eqb].
    pose proof (parse_print 10 (Z.abs_N z) ltac:(lia) ltac:(lia)) as Hparse.
    rewrite (hexValue_decimal _ _ Hparse). unfold decimalValue.
    pose proof (print_nonempty 10 (Z.abs_N z)) as Hne.
    destruct (print 10 (Z.abs_N z)) eqn:Hp; [done |]. cbn [falsy].
    rewrite Hparse. f_equal. rewrite N2Z.inj_abs_N. lia.
  - rewrite <- (Z2N.id z Hnonneg) at 2. rewrite <- from_toString_of_N.
    by rewrite Z2N.id.
Qed.

Lemma from_toHexString (z : Z) : from (toHexString z) = Return z.
Proof.
  destruct (Z.lt_ge_cases z 0) as [Hneg | Hnonneg].
  - unfold toHexString, sign. rewrite (proj2 (Z.ltb_lt z 0) Hneg).
    set (hex := if Nat.even _ then _ else _).
    change ("-" +:+ "0x" +:+ hex) with (String "-" (String "0" (String "x" hex))).
    assert (Hhex : hex <> EmptyString /\ parse 16 hex 0 = Some (Z.abs_N z)).
    { subst hex. destruct (Nat.even _).
      - split; [apply print_nonempty | apply parse_print; lia].
      - split; [done |]. rewrite parse_app. cbn. apply parse_print; lia. }
    destruct Hhex as [Hne Hparse].
    unfold from. cbn [stripSign Ascii.eqb Bool.eqb].
    unfold hexValue. cbn [strip0x Ascii.eqb Bool.eqb andb].
    destruct hex; [done |]. cbn [falsy]. rewrite Hparse.
    f_equal. rewrite N2Z.inj_abs_N. lia.
  - rewrite <- (Z2N.id z Hnonneg) at 2. rewrite <- from_toHexString_of_N.
    by rewrite Z2N.id.
Qed.

Lemma falsy_app_sep (u rest : string) (sep : ascii) :
  falsy (u +:+ String sep rest) = false.
Proof. by destruct u. Qed.

Lemma split_app_sep (u rest : string) (sep : ascii) :
  includes u sep = false ->
  split (u +:+ String sep rest) sep = u :: split rest sep.
Proof.
  induction u as [| a u IH]; [rewrite app_empty | rewrite app_String]; cbn.
  - by rewrite Ascii.eqb_refl.
  - destruct (Ascii.eqb a sep); [done |]. intros Hu. by rewrite (IH Hu).
Qed.

Lemma toString_no_minus (z : Z) : 0 <= z -> includes (toString z) "-" = false.
Proof.
  intros Hz. unfold toString, sign. rewrite (proj2 (Z.ltb_ge z 0)) by lia.
  rewrite app_empty. apply printFuel_lower.
Qed.

(** X5. The ID that [getUserAssetConfigById] asks for comes apart again:
    for a user ID without '-' and a non-negative asset ID,
    [destructUserAssetConfigId] of `${userId}-${assetId}` returns that user
    ID and the decimal numeral of that asset ID.  For a negative asset ID
    the asset part is cut at the sign and comes back empty. *)
Theorem destructUserAssetConfigId_userAssetConfigId (userId : string) (assetId : Z) :
  includes userId "-" = false ->
  (0 <= assetId ->
   destructUserAssetConfigId (SubgraphQueries.userAssetConfigId userId assetId)
   = Return {| Utils.userId := Some userId;
               Utils.assetId := Some (toString assetId) |})
  /\ (assetId < 0 ->
      destructUserAssetConfigId (SubgraphQueries.userAssetConfigId userId assetId)
      = Return {| Utils.userId := Some userId; Utils.assetId := Some "" |}).
Proof.
  intros Huser. unfold SubgraphQueries.userAssetConfigId, destructUserAssetConfigId.
  change ("-" +:+ toString assetId) with (String "-" (toString assetId)).
  rewrite falsy_app_sep, includes_app_sep, split_app_sep by done. cbn [negb orb].
  split.
  - intros Hasset.
    by rewrite (includes_false_split _ _ (toString_no_minus assetId Hasset)).
  - intros Hasset. unfold toString, sign. rewrite (proj2 (Z.ltb_lt assetId 0) Hasset).
    change ("-" +:+ print 10 (Z.abs_N assetId))
      with ("" +:+ String "-" (print 10 (Z.abs_N assetId))).
    by rewrite split_app_sep.
Qed.

Lemma destructUserAssetConfigId_userAssetConfigId_witness :
  destructUserAssetConfigId (SubgraphQueries.userAssetConfigId "42" 1000)
  = Return {| Utils.userId := Some "42"; Utils.assetId := Some "1000" |}
  /\ destructUserAssetConfigId (SubgraphQueries.userAssetConfigId "42" (-7))
     = Return {| Utils.userId := Some "42"; Utils.assetId := Some "" |}.
Proof.
  split.
  - apply (proj1 (destructUserAssetConfigId_userAssetConfigId "42" 1000 eq_refl)). lia.
  - apply (proj2 (destructUserAssetConfigId_userAssetConfigId "42" (-7) eq_refl)). lia.
Defined.

Lemma parse_isHexDigit (base : N) (s : string) (c : ascii) (acc n : N) :
  parse base s acc = Some n -> includes s c = true -> isHexDigit c = true.
Proof.
  revert acc. induction s as [| a s IH]; intros acc; cbn [parse includes]; [done |].
  destruct (charDigit a) as [d |] eqn:Hd; [| done].
  destruct (d <? base)%N; [| done]. intros Hparse.
  destruct (Ascii.eqb_spec a c) as [<- | _]; [| by eapply IH].
  intros _. unfold isHexDigit. by rewrite Hd.
Qed.

(** X6. [getTokenAddressFromAssetId] validates nothing of its own.  For a
    decimal numeral, with or without leading zeros, it returns the
    [toHexString] of the integer the numeral denotes, and for the numeral
    behind a '-' that of the negated integer.  For a string with a character
    that is neither a hex digit nor one of '-', 'x' and 'X' it lets the
    fault of [BigNumber] through.  It never throws a [DripsError]. *)
Theorem getTokenAddressFromAssetId_spec (assetId : string) :
  (forall n : N,
     assetId <> EmptyString -> parse 10 assetId 0 = Some n ->
     getTokenAddressFromAssetId assetId = Return (toHexString (Z.of_N n))
     /\ getTokenAddressFromAssetId ("-" +:+ assetId)
        = Return (toHexString (- Z.of_N n)))
  /\ (forall c : ascii,
        includes assetId c = true -> isHexDigit c = false ->
        c <> "-"%char -> c <> "x"%char -> c <> "X"%char ->
        getTokenAddressFromAssetId assetId = Throw (InvalidBigNumberString assetId))
  /\ (forall code message,
        getTokenAddressFromAssetId assetId <> Throw (DripsError code message)).
Proof.
  unfold getTokenAddressFromAssetId. split_and!.
  - intros n Hne Hparse. split.
    + by rewrite (from_decimal assetId n Hne Hparse).
    + change ("-" +:+ assetId) with (String "-" assetId).
      unfold from. cbn [stripSign Ascii.eqb Bool.eqb].
      rewrite (hexValue_decimal _ _ Hparse). unfold decimalValue.
      destruct assetId; [done |]. cbn [falsy]. by rewrite Hparse.
  - intros c Hc Hhex Hminus Hx HX.
    assert (Hzero : c <> "0"%char) by (by intros ->).
    unfold from.
    assert (Hdigits : includes (stripSign assetId).2 c = true).
    { destruct assetId as [| a s]; [done |]. cbn [stripSign].
      destruct (Ascii.eqb_spec a "-") as [-> | _]; [| done].
      cbn [snd]. cbn [includes] in Hc.
      by rewrite (proj2 (Ascii.eqb_neq "-" c)) in Hc by congruence. }
    destruct (stripSign assetId) as [negative digits]. cbn [snd] in Hdigits.
    assert (Hnohex : hexValue digits = None).
    { unfold hexValue. destruct (strip0x digits) as [hex |] eqn:Hstrip; [| done].
      apply strip0x_Some in Hstrip. subst digits.
      change ("0x" +:+ hex) with (String "0" (String "x" hex)) in Hdigits.
      cbn [includes] in Hdigits.
      rewrite (proj2 (Ascii.eqb_neq "0" c)), (proj2 (Ascii.eqb_neq "x" c)) in Hdigits
        by congruence.
      destruct (falsy hex); [done |].
      destruct (parse 16 hex 0) as [n |] eqn:Hparse; [| done].
      rewrite (parse_isHexDigit _ _ _ _ _ Hparse Hdigits) in Hhex. done. }
    assert (Hnodec : decimalValue digits = None).
    { unfold decimalValue. destruct (falsy digits); [done |].
      destruct (parse 10 digits 0) as [n |] eqn:Hparse; [| done].
      rewrite (parse_isHexDigit _ _ _ _ _ Hparse Hdigits) in Hhex. done. }
    by rewrite Hnohex, Hnodec.
  - intros code message. unfold from.
    destruct (stripSign assetId) as [negative digits].
    destruct (hexValue digits); [done |]. by destruct (decimalValue digits).
Qed.

Lemma getTokenAddressFromAssetId_spec_witness :
  getTokenAddressFromAssetId "0255" = Return "0xff"
  /\ getTokenAddressFromAssetId "-0255" = Return "-0xff"
  /\ getTokenAddressFromAssetId "12g4" = Throw (InvalidBigNumberString "12g4").
Proof.
  split; [| split].
  - apply (proj1 (getTokenAddressFromAssetId_spec "0255") 255%N);
      [discriminate | reflexivity].
  - apply (proj1 (getTokenAddressFromAssetId_spec "0255") 255%N);
      [discriminate | reflexivity].
  - apply (proj1 (proj2 (getTokenAddressFromAssetId_spec "12g4")) "g"%char);
      [reflexivity | reflexivity | discriminate | discriminate | discriminate].
Defined.

End Identifiers.

(** ** Asset IDs that are addresses, and the address of a user ID *)

Section Addresses.
Import Numeral BigNumberString Utils AddressDriverClient.

(** X7. From an asset ID back to the same asset ID.  For an asset ID from
    2^152 up to 2^160 - 1, [getTokenAddressFromAssetId] of its decimal numeral
    returns a valid address, and [getAssetIdFromAddress] of that address
    returns the same numeral.  For a smaller asset ID the string returned has
    fewer than 40 digits: it is no valid address, and
    [getAssetIdFromAddress] throws [DripsErrors.invalidAddress] for it. *)
Theorem getAssetIdFromAddress_getTokenAddressFromAssetId (n : N) :
  exists tokenAddress,
    getTokenAddressFromAssetId (print 10 n) = Return tokenAddress
    /\ ((2 ^ 152 <= n < 2 ^ 160)%N ->
        isAddress tokenAddress = true
        /\ getAssetIdFromAddress tokenAddress = Return (print 10 n))
    /\ ((n < 2 ^ 152)%N ->
        isAddress tokenAddress = false
        /\ exists message,
             getAssetIdFromAddress tokenAddress
             = Throw (DripsErrors.invalidAddress message)).
Proof.
  exists (toHexString (Z.of_N n)). split_and!.
  - unfold getTokenAddressFromAssetId.
    by rewrite <- toString_of_N, from_toString_of_N.
  - intros Hn.
    assert (Haddr : isAddress (toHexString (Z.of_N n)) = true)
      by (rewrite isAddress_toHexString; by apply bool_decide_eq_true_2).
    split; [exact Haddr |].
    unfold getAssetIdFromAddress, guardAgainstInvalidAddress. rewrite Haddr. cbn [bind].
    rewrite from_toHexString_of_N. cbn [bind]. by rewrite toString_of_N.
  - intros Hn.
    assert (Haddr : isAddress (toHexString (Z.of_N n)) = false)
      by (rewrite isAddress_toHexString; apply bool_decide_eq_false_2; lia).
    split; [exact Haddr |].
    unfold getAssetIdFromAddress, guardAgainstInvalidAddress. rewrite Haddr. cbn [bind].
    eauto.
Qed.

Lemma getAssetIdFromAddress_getTokenAddressFromAssetId_witness :
  exists tokenAddress,
    getTokenAddressFromAssetId (print 10 (2 ^ 159)) = Return tokenAddress
    /\ isAddress tokenAddress = true
    /\ getAssetIdFromAddress tokenAddress = Return (print 10 (2 ^ 159)).
Proof.
  destruct (getAssetIdFromAddress_getTokenAddressFromAssetId (2 ^ 159))
    as (tokenAddress & Htoken & Hlarge & _).
  exists tokenAddress. split; [exact Htoken |]. apply Hlarge. lia.
Defined.

Section UserAddress.
Variable getChecksumAddress : string -> string.
Variable getIcapAddress : string -> outcome.

Local Abbreviation getAddressOf := (getAddress getChecksumAddress getIcapAddress).
Local Abbreviation getUserAddressOf := (getUserAddress getChecksumAddress getIcapAddress).

Lemma getAddress_toHexString (n : N) :
  getAddressOf (toHexString (Z.of_N n))
  = if bool_decide (2 ^ 152 <= n < 2 ^ 160)%N
    then Returned (getChecksumAddress (toHexString (Z.of_N n)))
    else ThrownByGetAddress (InvalidAddress (toHexString (Z.of_N n))).
Proof.
  rewrite toHexString_of_N. set (hex := if Nat.even _ then _ else _).
  change ("0x" +:+ hex) with (String "0" (String "x" hex)).
  unfold getAddress.
  assert (Hbare : isHex40 (String "0" (String "x" hex)) = false).
  { unfold isHex40. cbn. apply andb_false_r. }
  rewrite Hbare. cbn [strip0x Ascii.eqb Bool.eqb andb].
  subst hex. rewrite isHex40_hexDigitsOf. case_bool_decide; [| done].
  assert (Hmixed : mixedCase
            (String "0" (String "x"
               (if Nat.even (String.length (print 16 n))
                then print 16 n else "0" +:+ print 16 n))) = false).
  { unfold mixedCase. cbn [String.list_ascii_of_string existsb].
    destruct (hexDigitsOf_lower n) as [_ ->]. done. }
  by rewrite Hmixed.
Qed.

(** X8. The address of a user ID.  [getUserAddress] keeps the low 160 bits
    of the ID and hands their [toHexString] to [getAddress].  It returns
    the checksummed form of that hex string when the low 160 bits are at
    least 2^152.  When they are smaller, the hex string has fewer than 40
    digits and [getAddress] rejects it as an invalid address.  A negative
    ID ends in the numeric fault of [BigNumber.and]. *)
Theorem getUserAddress_spec (userId : string) (n : Z) :
  from userId = Return n ->
  (n < 0 ->
   getUserAddressOf userId = Thrown (NumericFault "unbound-bitwise-result" "and"))
  /\ (0 <= n ->
      let low := n mod 2 ^ 160 in
      from (toHexString low) = Return low
      /\ (2 ^ 152 <= low ->
          getUserAddressOf userId = Returned (getChecksumAddress (toHexString low)))
      /\ (low < 2 ^ 152 ->
          getUserAddressOf userId = ThrownByGetAddress (InvalidAddress (toHexString low)))).
Proof.
  intros Hfrom. unfold getUserAddress. rewrite Hfrom. cbn [bind].
  change (BigNumber.shl 1 160) with (Return (2 ^ 160)). cbn [bind]. unfold sub.
  split.
  - intros Hneg. unfold BigNumber.and, BigNumber.isNegative.
    by rewrite (proj2 (Z.ltb_lt n 0) Hneg).
  - intros Hnonneg. cbv zeta. set (low := n mod 2 ^ 160).
    assert (Hland : Z.land n (2 ^ 160 - 1) = low).
    { change (2 ^ 160 - 1) with (Z.ones 160). by rewrite Z.land_ones by lia. }
    assert (Hlow : 0 <= low < 2 ^ 160) by (apply Z.mod_pos_bound; lia).
    rewrite and_nonneg, Hland by lia. cbn [bind].
    split; [apply from_toHexString |].
    rewrite <- (Z2N.id low) by lia. rewrite getAddress_toHexString.
    split; intros Hcase.
    + rewrite bool_decide_eq_true_2; [done |].
      change (2 ^ 152)%N with (Z.to_N (2 ^ 152)).
      change (2 ^ 160)%N with (Z.to_N (2 ^ 160)). lia.
    + rewrite bool_decide_eq_false_2; [done |].
      change (2 ^ 152)%N with (Z.to_N (2 ^ 152)). lia.
Qed.

End UserAddress.

Lemma getUserAddress_spec_witness :
  getUserAddress (fun address => address) (fun _ => Thrown (PlatformError "icap")) "-5"
  = Thrown (NumericFault "unbound-bitwise-result" "and")
  /\ getUserAddress (fun address => address) (fun _ => Thrown (PlatformError "icap"))
       "1461501637330902918203684832716283019655932542981"
     = ThrownByGetAddress (InvalidAddress "0x05").
Proof.
  split.
  - apply (proj1 (getUserAddress_spec (fun address => address)
                    (fun _ => Thrown (PlatformError "icap")) "-5" (-5) eq_refl)).
    lia.
  - apply (proj2 (proj2 (proj2 (getUserAddress_spec (fun address => address)
                    (fun _ => Thrown (PlatformError "icap"))
                    "1461501637330902918203684832716283019655932542981"
                    (2 ^ 160 + 5) ltac:(vm_compute; reflexivity)) ltac:(lia)))).
    vm_compute. reflexivity.
Defined.

End Addresses.

(** ** The users streaming to a user *)

Section UniqueSenders.
Import DripsSubgraphClient SubgraphQueries.
Context {E Raw SenderId AssetId : Type} `{EqDecision SenderId}.
Context (stringify : E -> string).
Variable fetch : variables -> result (Response.t (option (list Raw)) E).
Variable mapDripsReceiverSeenEventToDto : Raw -> DripsReceiverSeenEvent.t SenderId AssetId.

Local Abbreviation seenEvent := (DripsReceiverSeenEvent.t SenderId AssetId).
Local Abbreviation sendersOf events :=
  (map (@DripsReceiverSeenEvent.senderUserId SenderId AssetId) events).

Lemma pushIfNew_decide (unique : list SenderId) (o : seenEvent) :
  pushIfNew unique o
  = if decide (DripsReceiverSeenEvent.senderUserId o ∈ unique) then unique
    else unique ++ [DripsReceiverSeenEvent.senderUserId o].
Proof.
  unfold pushIfNew.
  assert (Hsome : existsb (fun id => bool_decide (id = DripsReceiverSeenEvent.senderUserId o))
                    unique
                  = bool_decide (DripsReceiverSeenEvent.senderUserId o ∈ unique)).
  { induction unique as [| id unique IH]; cbn [existsb].
    - symmetry. apply bool_decide_eq_false_2. by intros ?%elem_of_nil.
    - rewrite IH, <- bool_decide_or. apply bool_decide_ext.
      rewrite elem_of_cons. split; (intros [Heq | Hin]; [left; by symmetry | by right]). }
  rewrite Hsome. destruct (decide (DripsReceiverSeenEvent.senderUserId o ∈ unique)).
  - by rewrite bool_decide_eq_true_2.
  - by rewrite bool_decide_eq_false_2.
Qed.

Lemma foldl_pushIfNew (events : list seenEvent) (unique : list SenderId) :
  NoDup unique ->
  exists added,
    foldl pushIfNew unique events = unique ++ added
    /\ NoDup (unique ++ added)
    /\ added `sublist_of` sendersOf events
    /\ forall x, x ∈ unique ++ added <-> x ∈ unique \/ x ∈ sendersOf events.
Proof.
  revert unique. induction events as [| o events IH]; intros unique Hunique.
  - exists []. rewrite app_nil_r. split_and!; try done.
    intros x. cbn. rewrite elem_of_nil. tauto.
  - cbn [foldl map]. rewrite pushIfNew_decide. case_decide as Hin.
    + destruct (IH unique Hunique) as (added & -> & Hnodup & Hsub & Hmem).
      exists added. split_and!; try done.
      * by apply sublist_cons.
      * intros x. rewrite Hmem, elem_of_cons. split; [tauto |].
        intros [? | [-> | ?]]; auto.
    + assert (Hunique' : NoDup (unique ++ [DripsReceiverSeenEvent.senderUserId o])).
      { apply NoDup_app. split_and!; [done | | apply NoDup_singleton].
        intros x Hx ->%list_elem_of_singleton. done. }
      destruct (IH _ Hunique') as (added & -> & Hnodup & Hsub & Hmem).
      exists (DripsReceiverSeenEvent.senderUserId o :: added).
      rewrite <- !app_assoc in *. cbn [app] in *. split_and!; try done.
      * by apply sublist_skip.
      * intros x. rewrite Hmem, elem_of_app, list_elem_of_singleton, elem_of_cons. tauto.
Qed.

Lemma foldl_app_pushIfNew (l1 l2 : list seenEvent) (unique : list SenderId) :
  foldl pushIfNew unique (l1 ++ l2) = foldl pushIfNew (foldl pushIfNew unique l1) l2.
Proof. revert unique. induction l1 as [| o l1 IH]; intros unique; cbn; auto. Qed.

(** X9. The senders [getUsersStreamingToUser] returns: each sender of the
    events once, in the order of their first events.  The list has no
    duplicates, holds exactly the senders of the events, is a sublist of the
    senders in event order, and the list for a prefix of the events is a
    prefix of the list for all of them.  An empty receiver ID is refused
    with an [argumentMissingError], whatever the subgraph would answer. *)
Theorem getUsersStreamingToUser_spec (receiverUserId : string) :
  (receiverUserId = "" ->
   exists message,
     getUsersStreamingToUser stringify fetch mapDripsReceiverSeenEventToDto receiverUserId
     = Throw (argumentMissingError message))
  /\ (forall ids,
        getUsersStreamingToUser stringify fetch mapDripsReceiverSeenEventToDto receiverUserId
        = Return ids ->
        exists events,
          getDripsReceiverSeenEventsByReceiverId stringify fetch
            mapDripsReceiverSeenEventToDto receiverUserId = Return events
          /\ NoDup ids
          /\ (forall x, x ∈ ids <-> x ∈ sendersOf events)
          /\ ids `sublist_of` sendersOf events
          /\ forall l1 l2, events = l1 ++ l2 -> uniqueSenders l1 `prefix_of` ids).
Proof.
  unfold getUsersStreamingToUser. split.
  - intros ->. cbn. eauto.
  - intros ids. destruct (JsString.falsy receiverUserId); [done |].
    destruct (getDripsReceiverSeenEventsByReceiverId _ _ _ _) as [events |];
      cbn [bind]; [| done].
    intros [= <-]. exists events. split; [done |].
    destruct (foldl_pushIfNew events [] (NoDup_nil_2)) as (added & Hfold & Hnodup & Hsub & Hmem).
    unfold uniqueSenders. rewrite Hfold. cbn [app] in *. split_and!; try done.
    + intros x. rewrite Hmem, elem_of_nil. tauto.
    + intros l1 l2 ->. rewrite foldl_app_pushIfNew in Hfold.
      destruct (foldl_pushIfNew l1 [] (NoDup_nil_2)) as (added1 & Hfold1 & Hnodup1 & _).
      rewrite Hfold1 in Hfold |- *. cbn [app] in *.
      destruct (foldl_pushIfNew l2 added1 Hnodup1) as (added2 & Hfold2 & _).
      rewrite Hfold2 in Hfold. subst added. by exists added2.
Qed.

End UniqueSenders.

Section SendersAgree.
Import DripsSubgraphClient SubgraphQueries.
Context {SenderId AssetId : Type} `{EqDecision SenderId}
        `{ToString SenderId} `{ToString AssetId}.

Local Abbreviation seenEvent := (DripsReceiverSeenEvent.t SenderId AssetId).

Lemma getSqueezableSenders_is_Some (events : list seenEvent) (k : string) :
  is_Some (getSqueezableSenders (Some events) !! k)
  <-> exists e, e ∈ events /\ toString (DripsReceiverSeenEvent.senderUserId e) = k.
Proof.
  assert (Hlookup :
    getSqueezableSenders (Some events) !! k
    = (fun e : seenEvent =>
         [toString (DripsReceiverSeenEvent.assetId (DripsReceiverSeenEvent.dripsSetEvent e))])
      <$> head (filter (fun e : seenEvent =>
                          toString (DripsReceiverSeenEvent.senderUserId e) = k) events)).
  { destruct events as [| e events]; [apply lookup_empty |].
    unfold getSqueezableSenders.
    by rewrite (processEvent_foldl (e :: events) [] ∅ ∅). }
  rewrite Hlookup, fmap_is_Some, head_is_Some. split.
  - intros Hne.
    destruct (filter _ events) as [| e l] eqn:Hfilter; [done |].
    assert (He : e ∈ filter (fun e : seenEvent =>
                   toString (DripsReceiverSeenEvent.senderUserId e) = k) events)
      by (rewrite Hfilter; left).
    apply list_elem_of_filter in He as [Hk He]. eauto.
  - intros (e & He & Hk) Hnil.
    assert (Hin : e ∈ filter (fun e : seenEvent =>
                    toString (DripsReceiverSeenEvent.senderUserId e) = k) events)
      by (by apply list_elem_of_filter).
    rewrite Hnil in Hin. by apply elem_of_nil in Hin.
Qed.

(** X10. [getSqueezableSenders] and [getUsersStreamingToUser] agree on the
    senders: over the same events, the keys of the record are the
    [toString()] of the unique senders, no more and no fewer. *)
Theorem getSqueezableSenders_keys (events : list seenEvent) :
  dom (getSqueezableSenders (Some events))
  = list_to_set (toString <$> uniqueSenders events).
Proof.
  apply set_eq. intros k.
  rewrite elem_of_dom, getSqueezableSenders_is_Some, elem_of_list_to_set, list_elem_of_fmap.
  destruct (foldl_pushIfNew events [] (NoDup_nil_2)) as (added & Hfold & _ & _ & Hmem).
  unfold uniqueSenders. rewrite Hfold. cbn [app] in *. split.
  - intros (e & He & <-). exists (DripsReceiverSeenEvent.senderUserId e). split; [done |].
    apply Hmem. right. apply list_elem_of_fmap. eauto.
  - intros (x & -> & Hx). apply Hmem in Hx as [Hx | Hx]; [by apply elem_of_nil in Hx |].
    apply list_elem_of_fmap in Hx as (e & -> & He). eauto.
Qed.

End SendersAgree.

(** ** More on the squeeze-argument builder *)

Section SqueezeShape.
Import DripsSubgraphClient.
Context {AssetId : Type} `{EqDecision AssetId}.
Variable currentCycleStartDate : Z.
Variable getIdFromAddress : string -> result AssetId.

Local Abbreviation event := (DripsSetEvent.t AssetId).
Local Abbreviation ts := (@DripsSetEvent.blockTimestamp AssetId).
Local Abbreviation inCycle := (fun e : event => currentCycleStartDate <= ts e).
Local Abbreviation desc := (fun a b : event => ts b <= ts a).
Local Abbreviation keep := (keepCurrentCycle currentCycleStartDate).
Local Abbreviation sorted fetched := (sort (@byBlockTimestampDesc AssetId) fetched).
Local Abbreviation selectedOf := (squeezableDripsSetEvents currentCycleStartDate).
Local Abbreviation getArgs :=
  (getArgsForSqueezingAllDrips currentCycleStartDate getIdFromAddress).

Lemma sorted_nil (fetched : list event) : sorted fetched = [] <-> fetched = [].
Proof.
  pose proof (sort_Permutation byBlockTimestampDesc fetched) as Hperm.
  split; intros Hnil.
  - rewrite Hnil in Hperm. by apply Permutation_nil_l in Hperm.
  - by rewrite Hnil.
Qed.

Lemma head_keepCurrentCycle (l : list event) : head (keep l) = head l.
Proof. destruct l as [| e l]; [done |]. cbn. by destruct (JsDate.ge _ _). Qed.

Lemma selected_nil (fetched : list event) : selectedOf fetched = [] <-> fetched = [].
Proof.
  rewrite <- (sorted_nil fetched), <- !head_None. unfold squeezableDripsSetEvents.
  by rewrite head_keepCurrentCycle.
Qed.

(** Among time values, the newest event comes first among the events
    kept. *)
Lemma head_selected (fetched : list event) (newest : event) :
  Forall isTimeValue fetched ->
  head (selectedOf fetched) = Some newest ->
  forall e, e ∈ fetched -> ts e <= ts newest.
Proof.
  intros Htimes. unfold squeezableDripsSetEvents. rewrite head_keepCurrentCycle.
  pose proof (sort_Permutation byBlockTimestampDesc fetched) as Hperm.
  assert (Htimes' : Forall isTimeValue (sorted fetched)) by (by rewrite Hperm).
  pose proof (sorted_desc _ Htimes' (sorted_numberDesc fetched)) as Hsorted.
  intros Hhead e He. rewrite <- Hperm in He.
  destruct (sort _ fetched) as [| first rest]; [done |].
  injection Hhead as ->.
  apply StronglySorted_cons in Hsorted as [Hfirst _]. rewrite Forall_forall in Hfirst.
  apply elem_of_cons in He as [-> | He]; [done | by apply Hfirst].
Qed.

(** Behind the first of them in ascending order, the events kept are in the
    current cycle: the loop went on from each of them. *)
Lemma reverse_keepCurrentCycle_tail (l : list event) (i : nat) (e : event) :
  reverse (keep l) !! S i = Some e -> currentCycleStartDate <= ts e.
Proof.
  revert i. induction l as [| e0 l IH]; intros i; cbn [keepCurrentCycle]; [done |].
  rewrite ge_new_Number.
  destruct (Z.abs (ts e0) <=? JsDate.maxTime); cbn [andb]; [| done].
  destruct (Z.leb_spec currentCycleStartDate (ts e0)) as [Hin | Hout]; [| done].
  rewrite reverse_cons.
  intros [Hrest | [Hlen Hlast]]%lookup_app_Some; [by eapply IH |].
  apply list_elem_of_lookup_2, list_elem_of_singleton in Hlast. by subst e.
Qed.

Lemma reverse_selected_tail (fetched : list event) (i : nat) (e : event) :
  reverse (selectedOf fetched) !! S i = Some e -> currentCycleStartDate <= ts e.
Proof. apply reverse_keepCurrentCycle_tail. Qed.

(** X11. The shape of the history.  The history is empty exactly when no
    event was fetched.  Every item but the first is of the current cycle.
    When every fetched block timestamp is a time value, the last item is of
    the newest event: no fetched event is later than it. *)
Theorem getArgsForSqueezingAllDrips_shape
    (userId senderId tokenAddress : string) (fetched : list event)
    (u t s historyHash : string) (dripsHistory : list DripsHistoryStruct.t) :
  getArgs userId senderId tokenAddress fetched
  = Return (u, t, s, historyHash, dripsHistory) ->
  (dripsHistory = [] <-> fetched = [])
  /\ (forall i item,
        dripsHistory !! S i = Some item ->
        currentCycleStartDate <= DripsHistoryStruct.updateTime item)
  /\ (Forall isTimeValue fetched ->
      forall item,
        last dripsHistory = Some item ->
        forall e, e ∈ fetched -> ts e <= DripsHistoryStruct.updateTime item).
Proof.
  intros Hargs. apply getArgs_Return in Hargs as (_ & _ & _ & _ & Hitems).
  split_and!.
  - rewrite <- selected_nil.
    pose proof (Forall2_length _ _ _ Hitems) as Hlen. rewrite length_reverse in Hlen.
    split; intros Hnil.
    + rewrite Hnil in Hlen. by destruct (squeezableDripsSetEvents _ _).
    + rewrite Hnil in Hlen. by destruct dripsHistory.
  - intros i item Hitem.
    destruct (Forall2_lookup_l _ _ _ _ _ Hitems Hitem) as (e & He & Hmade).
    apply historyItem_Return in Hmade as (b & _ & _ & _ & -> & _).
    by eapply reverse_selected_tail.
  - intros Htimes item Hlast e He. rewrite last_lookup in Hlast.
    destruct (Forall2_lookup_l _ _ _ _ _ Hitems Hlast) as (newest & Hnewest & Hmade).
    apply historyItem_Return in Hmade as (b & _ & _ & _ & -> & _).
    rewrite (Forall2_length _ _ _ Hitems), <- last_lookup, last_reverse in Hnewest.
    by eapply head_selected.
Qed.

Lemma same_timestamp (l : list event) (x y : event) :
  NoDup (ts <$> l) -> x ∈ l -> y ∈ l -> ts x = ts y -> x = y.
Proof.
  induction l as [| e l IH]; cbn; [by intros _ ?%elem_of_nil |].
  intros [Hnotin Hnodup]%NoDup_cons Hx Hy Hts.
  apply elem_of_cons in Hx as [-> | Hx]; apply elem_of_cons in Hy as [-> | Hy]; auto.
  - exfalso. apply Hnotin. rewrite Hts. by apply list_elem_of_fmap_2.
  - exfalso. apply Hnotin. rewrite <- Hts. by apply list_elem_of_fmap_2.
Qed.

(** X12. The order in which the events are fetched does not matter when
    their block timestamps are time values that differ: for two lists of
    the same events, the builder returns the same. *)
Theorem getArgsForSqueezingAllDrips_Permutation
    (userId senderId tokenAddress : string) (fetched fetched' : list event) :
  Forall isTimeValue fetched ->
  NoDup (ts <$> fetched) -> fetched ≡ₚ fetched' ->
  getArgs userId senderId tokenAddress fetched
  = getArgs userId senderId tokenAddress fetched'.
Proof.
  intros Htimes Hnodup Hperm.
  assert (Hsort : sorted fetched = sorted fetched').
  { pose proof (sort_Permutation byBlockTimestampDesc fetched) as Hp.
    pose proof (sort_Permutation byBlockTimestampDesc fetched') as Hp'.
    assert (Hsorted : Forall isTimeValue (sorted fetched)) by (by rewrite Hp).
    assert (Hsorted' : Forall isTimeValue (sorted fetched'))
      by (by rewrite Hp', <- Hperm).
    apply (StronglySorted_unique_strong desc);
      [| by apply sorted_desc, sorted_numberDesc
       | by apply sorted_desc, sorted_numberDesc
       | by rewrite Hp, Hp'].
    intros x y Hx Hy Hxy Hyx. rewrite Hp in Hx. rewrite Hp', <- Hperm in Hy.
    apply (same_timestamp fetched); auto. cbn in *. lia. }
  unfold getArgsForSqueezingAllDrips, squeezableDripsSetEvents. by rewrite Hsort.
Qed.

End SqueezeShape.

(** ** The builder with its query *)

Section Pipeline.
Import DripsSubgraphClient SubgraphQueries.
Context {E Raw AssetId : Type} `{EqDecision AssetId}.
Context (stringify : E -> string).
Variable fetch : variables -> result (Response.t (option (list Raw)) E).
Variable mapDripsSetEventToDto : Raw -> DripsSetEvent.t AssetId.
Variable currentCycleStartDate : Z.
Variable getIdFromAddress : string -> result AssetId.

Local Abbreviation getEvents :=
  (getDripsSetEventsByUserId stringify fetch mapDripsSetEventToDto).
Local Abbreviation getArgsOf :=
  (getArgsForSqueezingAllDripsOf stringify fetch mapDripsSetEventToDto
     currentCycleStartDate getIdFromAddress).

Lemma getDripsSetEventsByUserId_answered (userId : string)
    (resp : Response.t (option (list Raw)) E)
    (body : option (Response.content (option (list Raw)) E)) :
  userId <> "" ->
  fetch [("userId", userId)] = Return resp ->
  200 <= Response.status resp <= 299 ->
  Response.json resp = Return body ->
  errorsAbsentOrEmpty body ->
  getEvents userId = Return (default [] (map mapDripsSetEventToDto <$> field body)).
Proof.
  intros Hne Hfetch Hstatus Hjson Herrors. unfold getDripsSetEventsByUserId.
  destruct userId; [done |]. cbn [JsString.falsy].
  rewrite Hfetch. unfold query, inRange. cbn [bind].
  rewrite (proj2 (Z.leb_le _ _)), (proj2 (Z.leb_le _ _)) by lia. cbn [andb].
  rewrite Hjson. cbn [bind].
  by rewrite (proj2 (hasErrors_false body) Herrors).
Qed.

(** X13. The whole of [getArgsForSqueezingAllDrips], with its query.  An
    empty sender ID is refused with an [argumentMissingError].  A status
    outside 200-299 ends in a [subgraphQueryError].  For an answer without
    errors the arguments are built from the mapped events of the answer;
    when the answer holds no event, the result is the zero hash and an
    empty history for every user ID and token address, neither of which is
    looked at. *)
Theorem getArgsForSqueezingAllDripsOf_spec (userId senderId tokenAddress : string) :
  (senderId = "" ->
   exists message,
     getArgsOf userId senderId tokenAddress = Throw (argumentMissingError message))
  /\ (forall resp,
        senderId <> "" ->
        fetch [("userId", senderId)] = Return resp ->
        ~ 200 <= Response.status resp <= 299 ->
        exists message,
          getArgsOf userId senderId tokenAddress
          = Throw (DripsErrors.subgraphQueryError message))
  /\ (forall resp body,
        senderId <> "" ->
        fetch [("userId", senderId)] = Return resp ->
        200 <= Response.status resp <= 299 ->
        Response.json resp = Return body ->
        errorsAbsentOrEmpty body ->
        getArgsOf userId senderId tokenAddress
        = getArgsForSqueezingAllDrips currentCycleStartDate getIdFromAddress
            userId senderId tokenAddress
            (default [] (map mapDripsSetEventToDto <$> field body))
        /\ (default [] (field body) = [] ->
            getArgsOf userId senderId tokenAddress
            = Return (userId, tokenAddress, senderId, HashZero, []))).
Proof.
  unfold getArgsForSqueezingAllDripsOf. split_and!.
  - intros ->. cbn. eauto.
  - intros resp Hne Hfetch Hstatus. unfold getDripsSetEventsByUserId.
    destruct senderId; [done |]. cbn [JsString.falsy].
    rewrite Hfetch. unfold query, inRange. cbn [bind].
    destruct (Z.leb_spec 200 (Response.status resp));
      destruct (Z.leb_spec (Response.status resp) 299); cbn [andb bind]; eauto.
    lia.
  - intros resp body Hne Hfetch Hstatus Hjson Herrors.
    rewrite (getDripsSetEventsByUserId_answered senderId resp body) by done.
    cbn [bind]. split; [done |].
    intros Hnone. destruct (field body) as [events |]; cbn in *; [| done].
    by subst events.
Qed.

End Pipeline.

Lemma getArgsForSqueezingAllDripsOf_spec_witness :
  SubgraphQueries.getArgsForSqueezingAllDripsOf (fun e : string => e)
    SampleQueries.fetchDripsSet (fun raw => raw)
    Sample.currentCycleStartDate Sample.getIdFromAddress "alice" "carol" "0xtoken"
  = Return ("alice", "0xtoken", "carol", "0xh80", Sample.dripsHistory)
  /\ SubgraphQueries.getArgsForSqueezingAllDripsOf (fun e : string => e)
       SampleQueries.fetchNone (fun raw => raw)
       Sample.currentCycleStartDate Sample.getIdFromAddress "" "carol" "no address"
     = Return ("", "no address", "carol", HashZero, []).
Proof.
  split.
  - refine (eq_trans
      (proj1 (proj2 (proj2 (getArgsForSqueezingAllDripsOf_spec (fun e : string => e)
                 SampleQueries.fetchDripsSet (fun raw => raw)
                 Sample.currentCycleStartDate Sample.getIdFromAddress
                 "alice" "carol" "0xtoken"))
               _ _ _ eq_refl _ eq_refl _)) _);
      [done | cbn; lia | cbn; auto | reflexivity].
  - refine (proj2 (proj2 (proj2 (getArgsForSqueezingAllDripsOf_spec (fun e : string => e)
                 SampleQueries.fetchNone (fun raw => raw)
                 Sample.currentCycleStartDate Sample.getIdFromAddress
                 "" "carol" "no address"))
               _ _ _ eq_refl _ eq_refl _) _);
      [done | cbn; lia | cbn; auto | reflexivity].
Defined.

Lemma getUsersStreamingToUser_spec_witness :
  SubgraphQueries.getUsersStreamingToUser (fun e : string => e)
    SampleQueries.fetchSeen SampleQueries.mapSeen "7"
  = Return ["1"; "2"]
  /\ NoDup ["1"; "2"].
Proof.
  assert (Hids :
    SubgraphQueries.getUsersStreamingToUser (fun e : string => e)
      SampleQueries.fetchSeen SampleQueries.mapSeen "7"
    = Return ["1"; "2"]) by reflexivity.
  split; [exact Hids |].
  destruct (proj2 (getUsersStreamingToUser_spec (fun e : string => e)
                     SampleQueries.fetchSeen SampleQueries.mapSeen "7") _ Hids)
    as (events & _ & Hnodup & _).
  exact Hnodup.
Defined.

Lemma getArgsForSqueezingAllDrips_shape_witness :
  Forall DripsSubgraphClient.isTimeValue Sample.fetched
  /\ (Sample.dripsHistory = [] <-> Sample.fetched = [])
  /\ (forall i item,
        Sample.dripsHistory !! S i = Some item ->
        Sample.currentCycleStartDate <= DripsHistoryStruct.updateTime item)
  /\ (forall item,
        last Sample.dripsHistory = Some item ->
        forall e, e ∈ Sample.fetched ->
          DripsSetEvent.blockTimestamp e <= DripsHistoryStruct.updateTime item).
Proof.
  assert (Htimes : Forall DripsSubgraphClient.isTimeValue Sample.fetched)
    by (repeat constructor; vm_compute; discriminate).
  assert (Hargs :
    DripsSubgraphClient.getArgsForSqueezingAllDrips
      Sample.currentCycleStartDate Sample.getIdFromAddress
      "alice" "carol" "0xtoken" Sample.fetched
    = Return ("alice", "0xtoken", "carol", "0xh80", Sample.dripsHistory))
    by reflexivity.
  destruct (getArgsForSqueezingAllDrips_shape
              Sample.currentCycleStartDate Sample.getIdFromAddress
              "alice" "carol" "0xtoken" Sample.fetched
              "alice" "0xtoken" "carol" "0xh80" Sample.dripsHistory Hargs)
    as (Hempty & Htail & Hlast).
  split; [exact Htimes |]. split; [exact Hempty |]. split; [exact Htail |].
  exact (Hlast Htimes).
Defined.

Lemma getArgsForSqueezingAllDrips_Permutation_witness :
  Forall DripsSubgraphClient.isTimeValue Sample.fetched
  /\ DripsSubgraphClient.getArgsForSqueezingAllDrips
       Sample.currentCycleStartDate Sample.getIdFromAddress
       "alice" "carol" "0xtoken" Sample.fetched
     = DripsSubgraphClient.getArgsForSqueezingAllDrips
         Sample.currentCycleStartDate Sample.getIdFromAddress
         "alice" "carol" "0xtoken" (reverse Sample.fetched).
Proof.
  assert (Htimes : Forall DripsSubgraphClient.isTimeValue Sample.fetched)
    by (repeat constructor; vm_compute; discriminate).
  split; [exact Htimes |].
  apply (getArgsForSqueezingAllDrips_Permutation
           Sample.currentCycleStartDate Sample.getIdFromAddress
           "alice" "carol" "0xtoken" Sample.fetched (reverse Sample.fetched)).
  - exact Htimes.
  - apply (bool_decide_unpack _). vm_compute. exact I.
  - by rewrite reverse_Permutation.
Defined.

(** ** Asking for one configuration *)

Section UserAssetConfig.
Import DripsSubgraphClient SubgraphQueries.
Context {E Raw UserAssetConfig : Type}.
Context (stringify : E -> string).
Variable mapUserAssetConfigToDto : Raw -> UserAssetConfig.

Local Abbreviation getConfig fetch :=
  (getUserAssetConfigById stringify fetch mapUserAssetConfigToDto).

(** X14. [getUserAssetConfigById] refuses an empty user ID and the asset
    ID 0 with an [argumentMissingError] before it asks anything.  What it
    asks the subgraph for is the ID `${userId}-${assetId}` and nothing else:
    two subgraphs that answer alike for that ID give the same result.  An
    answer without errors and without a configuration gives [null]. *)
Theorem getUserAssetConfigById_spec (userId : string) (assetId : Z)
    (fetch : variables -> result (Response.t (option Raw) E)) :
  (userId = "" \/ assetId = 0 ->
   exists message, getConfig fetch userId assetId = Throw (argumentMissingError message))
  /\ (forall fetch',
        fetch [("configId", userAssetConfigId userId assetId)]
        = fetch' [("configId", userAssetConfigId userId assetId)] ->
        getConfig fetch userId assetId = getConfig fetch' userId assetId)
  /\ (forall resp body,
        userId <> "" -> assetId <> 0 ->
        fetch [("configId", userAssetConfigId userId assetId)] = Return resp ->
        200 <= Response.status resp <= 299 ->
        Response.json resp = Return body ->
        errorsAbsentOrEmpty body ->
        getConfig fetch userId assetId = Return (mapUserAssetConfigToDto <$> field body)
        /\ (field body = None -> getConfig fetch userId assetId = Return None)).
Proof.
  unfold getUserAssetConfigById. split_and!.
  - intros [-> | ->]; [cbn; eauto |].
    destruct (JsString.falsy userId); cbn; eauto.
  - intros fetch' Hsame. by rewrite Hsame.
  - intros resp body Huser Hasset Hfetch Hstatus Hjson Herrors.
    destruct userId; [done |]. cbn [JsString.falsy].
    rewrite (proj2 (Z.eqb_neq assetId 0) Hasset), Hfetch.
    unfold query, inRange. cbn [bind].
    rewrite (proj2 (Z.leb_le _ _)), (proj2 (Z.leb_le _ _)) by lia. cbn [andb].
    rewrite Hjson. cbn [bind].
    rewrite (proj2 (hasErrors_false body) Herrors).
    cbn [bind]. split; [done |]. by intros ->.
Qed.

End UserAssetConfig.

Lemma getUserAssetConfigById_spec_witness :
  let fetch := fun _ : SubgraphQueries.variables =>
    Return {| Response.status := 200; Response.statusText := "OK";
              Response.json := Return (@None (Response.content (option Z) string)) |} in
  (exists message,
     SubgraphQueries.getUserAssetConfigById (fun e : string => e) fetch (fun raw : Z => raw) "42" 0
     = Throw (SubgraphQueries.argumentMissingError message))
  /\ SubgraphQueries.getUserAssetConfigById (fun e : string => e) fetch (fun raw : Z => raw) "42" 7
     = Return None.
Proof.
  intros fetch. split.
  - apply (proj1 (getUserAssetConfigById_spec (fun e : string => e)
                    (fun raw : Z => raw) "42" 0 fetch)).
    by right.
  - refine (proj2 (proj2 (proj2 (getUserAssetConfigById_spec (fun e : string => e)
                    (fun raw : Z => raw) "42" 7 fetch))
                    _ None _ _ eq_refl _ eq_refl _) eq_refl);
      [done | done | cbn; lia | exact I].
Defined.
